(** * VexFlow formatter: a shallow embedding of [src/formatter.js]

    The formatter groups the tickables of one or more voices into tick
    contexts keyed by an integer tick coordinate, lays the contexts out at
    their minimum width (pass 1 of [preFormat]) and distributes the
    leftover width in proportion to elapsed ticks (pass 2).  It also holds
    the rest alignment heuristic [AlignRestsToNotes].

    Conventions of the embedding.
    - Every JavaScript method becomes a function from the receiver's state
      (and the objects it mutates) to a [Result]: [Ok] with the new state,
      or [Throw] with the exception raised.
    - A pixel quantity is a JavaScript number: an IEEE 754 double, the
      primitive [float], whose operations round to nearest as the
      engine's do and keep the infinities, the signed zeros and NaN.
    - Tick coordinates, numerators, denominators and multipliers are
      integers ([Z]): the code computes them with doubles, which is exact
      below [2^53].  Where an integer enters the pixel arithmetic it is
      converted to the nearest double ([JSNum.of_Z]).
    - A staff line is a rational ([Q]): the code compares lines and hands
      them to [Vex.MidLine], it does no arithmetic on them.
    - An object reference to a tickable is its position
      (voice index, tickable index) in the voice array handed to
      [createContexts]; a reference to a context is its index in the
      [array] of contexts, which is how [map] and [array] share them.
    - The helpers that draw ([FormatAndDraw], [FormatAndDrawTab]) and the
      logger [L] are outside the embedding: they go through the voice
      builder, the beams and the renderer, which are missing from the
      sources. *)

From Stdlib Require Import ZArith QArith Qminmax Lia String Ascii Floats.
From stdpp Require Import base option list gmap sorting.

Local Open Scope Z_scope.

(** ** JavaScript numbers *)

Module JSNum.

(** A number is a double. *)
Abbreviation num := float (only parsing).

(** The double of an integer: the nearest one, the integer itself below
    [2^53]. *)
Definition of_Z (z : Z) : num :=
  SF2Prim (binary_normalize prec emax z 0 false).

(** [a > b] *)
Definition gtb (a b : num) : bool := (b <? a)%float.

(** [Math.max(a, b)]: NaN when an argument is, and [+0] above [-0]. *)
Definition max (a b : num) : num :=
  if is_nan a || is_nan b then nan
  else if (a <? b)%float then b
  else if (b <? a)%float then a
  else if is_zero a && get_sign a then b
  else a.

End JSNum.
Import JSNum.

(** ** Exceptions and results *)

Inductive Code : Type :=
| BadArgument
| TickMismatch
| IncompleteVoice
| NoMinTotalWidth.

(** [RERR c] is [new Vex.RERR(c, ...)]; [TypeError] is what the engine
    raises when a property of [null] or [undefined] is read. *)
Inductive Exception : Type :=
| RERR (code : Code)
| TypeError.

Inductive Result (A : Type) : Type :=
| Ok (a : A)
| Throw (e : Exception).
Arguments Ok {A} a.
Arguments Throw {A} e.

#[global] Instance Result_ret : MRet Result := fun A a => Ok a.
#[global] Instance Result_bind : MBind Result := fun A B k r =>
  match r with
  | Ok a => k a
  | Throw e => Throw e
  end.

(** [reduce f init xs] is [xs.reduce(f, init)] for a callback that may
    throw. *)
Fixpoint reduce {A B} (f : B -> A -> Result B) (xs : list A) (init : B)
  : Result B :=
  match xs with
  | [] => Ok init
  | x :: xs' => acc ← f init x; reduce f xs' acc
  end.

(** ** The rational utility *)

Module Fraction.

Record t : Type := mk { numerator : Z; denominator : Z }.

(** Modelled from the spec: [Fraction.LCM] of [fraction.js] is missing
    from the sources; the rational utility's least common multiple. *)
Definition LCM (a b : Z) : Z := Z.lcm a b.

(** Modelled from the spec: [Fraction.prototype.add] of [fraction.js] is
    missing from the sources; exact addition, the sum being expressed
    over the least common multiple of the two denominators, so that a
    running total keeps the shared denominator it started with. *)
Definition add (this other : t) : t :=
  let lcm := LCM (denominator this) (denominator other) in
  let a := lcm / denominator this in
  let b := lcm / denominator other in
  mk (numerator this * a + numerator other * b) lcm.

(** Modelled from the spec: [Fraction.prototype.equals] of [fraction.js]
    is missing from the sources; equality of the two rationals. *)
Definition equals (this other : t) : bool :=
  numerator this * denominator other =? numerator other * denominator this.

(** Modelled from the spec: [Fraction.prototype.value] of [fraction.js]
    is missing from the sources; the rational as a real value, the
    quotient of the numerator by the denominator. *)
Definition value (this : t) : num :=
  (of_Z (numerator this) / of_Z (denominator this))%float.

(** Modelled from the spec: [Fraction.prototype.clone] of [fraction.js]
    is missing from the sources; a copy of the rational. *)
Definition clone (this : t) : t := this.

End Fraction.

(** ** Helpers of [vex.js] *)

Module Vex.

(** Drop every element equal to the one before it. *)
Fixpoint unique {A} (eq : A -> A -> bool) (last : option A) (arr : list A)
  : list A :=
  match arr with
  | [] => []
  | a :: arr' =>
      match last with
      | Some l => if eq a l then unique eq (Some a) arr'
                  else a :: unique eq (Some a) arr'
      | None => a :: unique eq (Some a) arr'
      end
  end.

(** Modelled from the spec: [Vex.SortAndUnique] of [vex.js] is missing
    from the sources; sort ascending by the comparator, then
    deduplicate by the equality. *)
Definition SortAndUnique {A} (arr : list A) (cmp : A -> A -> Z)
    (eq : A -> A -> bool) : list A :=
  unique eq None
    (@merge_sort A (fun a b => cmp a b <= 0)
       (fun a b => decide (cmp a b <= 0)) arr).

End Vex.

(** ** Tickables, voices and the two context kinds *)

(** A reference to a tickable: (index of its voice, index in the voice). *)
Definition TickableRef : Type := (nat * nat)%type.

(** Opaque handles of objects the formatter passes on and never reads. *)
Definition Stave : Type := nat.
Definition RenderingContext : Type := nat.
Definition Handle : Type := nat.

Module Tickable.

(** What the formatter reads from and writes to a note.  Only a
    [StaveNote] has key properties: for any other tickable
    [getKeyProps()[0]] is undefined, and [line] stands for nothing. *)
Record t : Type := mk {
  ticks : Fraction.t;            (* getTicks() *)
  ignoreTicks : bool;            (* shouldIgnoreTicks() *)
  width : num;                   (* minimum width, once finalised *)
  leftPx : num;                  (* left padding *)
  rightPx : num;                 (* right padding *)
  extraLeftPx : num;             (* extra-left padding *)
  extraRightPx : num;            (* extra-right padding *)
  centerAligned : bool;          (* isCenterAligned() *)
  center_x_shift : num;
  isStaveNote : bool;            (* instanceof StaveNote *)
  rest : bool;                   (* isRest() *)
  tuplet : option Handle;        (* note.tuplet *)
  beam : option Handle;          (* note.beam *)
  glyphPosition : string;        (* getGlyph().position *)
  line : Q;                      (* getKeyProps()[0].line, of a StaveNote *)
  lineForRest : Q                (* getLineForRest() *)
}.

(** [note.getKeyProps()[0].line = l; note.setKeyLine(0, l)] *)
Definition setKeyLine (l : Q) (n : t) : t :=
  mk (ticks n) (ignoreTicks n) (width n) (leftPx n) (rightPx n)
     (extraLeftPx n) (extraRightPx n) (centerAligned n) (center_x_shift n)
     (isStaveNote n) (rest n) (tuplet n) (beam n) (glyphPosition n)
     l (lineForRest n).

(** [tickable.center_x_shift = s] *)
Definition setCenterXShift (s : num) (n : t) : t :=
  mk (ticks n) (ignoreTicks n) (width n) (leftPx n) (rightPx n)
     (extraLeftPx n) (extraRightPx n) (centerAligned n) s
     (isStaveNote n) (rest n) (tuplet n) (beam n) (glyphPosition n)
     (line n) (lineForRest n).

End Tickable.

Module TickContext.

Record ExtraPx : Type := mkExtra {
  left : num; right : num; extraLeft : num; extraRight : num
}.

(** Modelled from the spec: the class [TickContext] of [tickcontext.js]
    is missing from the sources; the ordered member tickables, the
    computed width (the maximum over the members), the computed left,
    right, extra-left and extra-right padding, the assigned horizontal
    position and the attached rendering handle. *)
Record t : Type := mk {
  tickables : list (TickableRef * Tickable.t);
  x : num;
  width : num;
  extraPx : ExtraPx;
  context : option RenderingContext;
  postFormatted : bool
}.

(** Modelled from the spec: a new tick context has no member, and
    [addTickable] appends one. *)
Definition new : t :=
  mk [] 0%float 0%float (mkExtra 0%float 0%float 0%float 0%float)
     None false.

Definition addTickable (tickable : TickableRef * Tickable.t) (c : t) : t :=
  mk (tickables c ++ [tickable]) (x c) (width c) (extraPx c) (context c)
     (postFormatted c).

Definition maxOf (f : Tickable.t -> num) (c : t) : num :=
  foldl (fun m tickable => JSNum.max m (f tickable.2)) 0%float
        (tickables c).

(** Modelled from the spec: [TickContext.prototype.preFormat] finalises
    the internal layout; the width and each padding are the maximum
    ([Math.max], from 0) over the members. *)
Definition preFormat (c : t) : t :=
  mk (tickables c) (x c) (maxOf Tickable.width c)
     (mkExtra (maxOf Tickable.leftPx c) (maxOf Tickable.rightPx c)
              (maxOf Tickable.extraLeftPx c) (maxOf Tickable.extraRightPx c))
     (context c) (postFormatted c).

Definition getWidth (c : t) : num := width c.
Definition getExtraPx (c : t) : ExtraPx := extraPx c.
Definition getX (c : t) : num := x c.

Definition setX (x' : num) (c : t) : t :=
  mk (tickables c) x' (width c) (extraPx c) (context c) (postFormatted c).

Definition setContext (r : RenderingContext) (c : t) : t :=
  mk (tickables c) (x c) (width c) (extraPx c) (Some r) (postFormatted c).

Definition postFormat (c : t) : t :=
  mk (tickables c) (x c) (width c) (extraPx c) (context c) true.

(** [getCenterAlignedTickables().forEach(tickable => f(tickable))] for a
    callback that assigns to the tickable. *)
Definition forEachCenterAligned (f : Tickable.t -> Tickable.t) (c : t) : t :=
  mk ((fun tickable : TickableRef * Tickable.t =>
         if Tickable.centerAligned tickable.2
         then (tickable.1, f tickable.2) else tickable)
        <$> tickables c)
     (x c) (width c) (extraPx c) (context c) (postFormatted c).

End TickContext.

Module ModifierContext.

(** Modelled from the spec: the class [ModifierContext] of
    [modifiercontext.js] is missing from the sources; the tickables
    that start at one tick, grouped for collision resolution. *)
Record t : Type := mk {
  members : list (TickableRef * Tickable.t);
  postFormatted : bool
}.

Definition new : t := mk [] false.

(** Modelled from the spec: [tickable.addToModifierContext(context)]
    groups the tickable with the others at its tick. *)
Definition addMember (tickable : TickableRef * Tickable.t) (c : t) : t :=
  mk (members c ++ [tickable]) (postFormatted c).

Definition postFormat (c : t) : t := mk (members c) true.

End ModifierContext.

Module Voice.

Inductive Mode : Type := STRICT | SOFT.

Definition Mode_eqb (a b : Mode) : bool :=
  match a, b with
  | STRICT, STRICT | SOFT, SOFT => true
  | _, _ => false
  end.

(** Modelled from the spec: the class [Voice] of [voice.js] is missing
    from the sources; the ordered tickables, the total ticks, the ticks
    used so far, the resolution multiplier, the validation mode and the
    stave the voice is bound to. *)
Record t : Type := mk {
  tickables : list Tickable.t;
  totalTicks : Fraction.t;
  ticksUsed : Fraction.t;
  resolutionMultiplier : Z;
  mode : Mode;
  stave : option Stave;
  preFormatted : bool
}.

Definition getTickables := tickables.
Definition getTotalTicks := totalTicks.
Definition getTicksUsed := ticksUsed.
Definition getResolutionMultiplier := resolutionMultiplier.
Definition getMode := mode.

(** Modelled from the spec: [Voice.prototype.isComplete] is missing from
    the sources; the completeness check of a strict voice: the ticks
    used so far are the total ticks. *)
Definition isComplete (v : t) : bool :=
  Fraction.equals (ticksUsed v) (totalTicks v).

Definition setStave (s : Stave) (v : t) : t :=
  mk (tickables v) (totalTicks v) (ticksUsed v) (resolutionMultiplier v)
     (mode v) (Some s) (preFormatted v).

(** Modelled from the spec: [Voice.prototype.preFormat] is missing from
    the sources; the voice's own vertical pre-formatting. *)
Definition preFormat (v : t) : t :=
  mk (tickables v) (totalTicks v) (ticksUsed v) (resolutionMultiplier v)
     (mode v) (stave v) true.

Definition setTickables (ts : list Tickable.t) (v : t) : t :=
  mk ts (totalTicks v) (ticksUsed v) (resolutionMultiplier v)
     (mode v) (stave v) (preFormatted v).

End Voice.

(** The object [createContexts] returns.  [map] sends a tick to the index
    in [array] of the context it shares with [array]. *)
Module Contexts.

Record t (C : Type) : Type := mk {
  map : gmap Z nat;
  array : list C;
  list : list Z;
  resolutionMultiplier : Z
}.
Arguments mk {C}.
Arguments map {C}.
Arguments array {C}.
Arguments list {C}.
Arguments resolutionMultiplier {C}.

(** [contexts.map[tick]] *)
Definition get {C} (contexts : t C) (tick : Z) : option C :=
  i ← map contexts !! tick; array contexts !! i.

End Contexts.

(** ** [lookAhead]: the line of the next non-rest note *)

Section LookAhead.

(** [Vex.MidLine] of [vex.js] is missing from the sources: the midpoint
    line between a higher and a lower line is taken as a parameter. *)
Variable MidLine : Q -> Q -> Q.

Definition lookAhead (notes : list Tickable.t) (restLine : Q) (i : nat)
    (compare : bool) : Q :=
  (* If no valid next note group, nextRestLine is same as current. *)
  let nextRestLine :=
    match
      find (fun note => negb (Tickable.rest note)
                        && negb (Tickable.ignoreTicks note))
           (drop (S i) notes)
    with
    | Some note => Tickable.lineForRest note
    | None => restLine
    end in
  (* Locate the mid point between two lines. *)
  if compare && negb (Qeq_bool restLine nextRestLine) then
    let top := Qmax restLine nextRestLine in
    let bot := Qmin restLine nextRestLine in
    MidLine top bot
  else nextRestLine.

End LookAhead.

(** ** [createContexts]: the grid of contexts *)

Section CreateContexts.

Context {C : Type}.
(** [new ContextType()] and the insertion callback. *)
Variable ContextType : C.
Variable addToContext : TickableRef * Tickable.t -> C -> C.

(** The callback of [voices.reduce]: validate one voice and fold its
    resolution multiplier in. *)
Definition foldMultiplier (totalTicks : Fraction.t)
    (resolutionMultiplier : Z) (voice : Voice.t) : Result Z :=
  if negb (Fraction.equals (Voice.getTotalTicks voice) totalTicks) then
    Throw (RERR TickMismatch)
  else if Voice.Mode_eqb (Voice.getMode voice) Voice.STRICT
          && negb (Voice.isComplete voice) then
    Throw (RERR IncompleteVoice)
  else
    Ok (Z.max resolutionMultiplier
              (Fraction.LCM resolutionMultiplier
                            (Voice.getResolutionMultiplier voice))).

(** The three tick maps the grid loop fills. *)
Record Grid : Type := mkGrid {
  tickToContextMap : gmap Z nat;
  tickList : list Z;
  contexts : list C
}.

(** The body of [voice.getTickables().forEach]: one tickable, visited
    when the running total is [ticksUsed]. *)
Definition visit (ref : TickableRef) (tickable : Tickable.t)
    (ticksUsed : Fraction.t) (g : Grid) : Grid :=
  let integerTicks := Fraction.numerator ticksUsed in
  (* If we have no tick context for this tick, create one. *)
  let g1 :=
    match tickToContextMap g !! integerTicks with
    | None =>
        mkGrid (<[integerTicks := length (contexts g)]> (tickToContextMap g))
               (tickList g)
               (contexts g ++ [ContextType])
    | Some _ => g
    end in
  (* Add this tickable to the TickContext. *)
  let contexts2 :=
    match tickToContextMap g1 !! integerTicks with
    | Some i => alter (addToContext (ref, tickable)) i (contexts g1)
    | None => contexts g1
    end in
  (* Maintain a sorted list of tick contexts. *)
  mkGrid (tickToContextMap g1) (tickList g1 ++ [integerTicks]) contexts2.

Fixpoint forEachTickable (vi ti : nat) (tickables : list Tickable.t)
    (ticksUsed : Fraction.t) (g : Grid) : Grid :=
  match tickables with
  | [] => g
  | tickable :: tickables' =>
      forEachTickable vi (S ti) tickables'
        (Fraction.add ticksUsed (Tickable.ticks tickable))
        (visit (vi, ti) tickable ticksUsed g)
  end.

Fixpoint forEachVoice (vi : nat) (voices : list Voice.t)
    (resolutionMultiplier : Z) (g : Grid) : Grid :=
  match voices with
  | [] => g
  | voice :: voices' =>
      forEachVoice (S vi) voices' resolutionMultiplier
        (forEachTickable vi 0 (Voice.getTickables voice)
           (Fraction.mk 0 resolutionMultiplier) g)
  end.

Definition createContexts (voices : option (list Voice.t))
  : Result (Contexts.t C) :=
  match voices with
  | None | Some [] => Throw (RERR BadArgument)
  | Some ((voice0 :: _) as voices) =>
      let totalTicks := Voice.getTotalTicks voice0 in
      resolutionMultiplier ← reduce (foldMultiplier totalTicks) voices 1;
      let g := forEachVoice 0 voices resolutionMultiplier
                 (mkGrid ∅ [] []) in
      Ok (Contexts.mk (tickToContextMap g) (contexts g)
            (Vex.SortAndUnique (tickList g) (fun a b => a - b) Z.eqb)
            resolutionMultiplier)
  end.

End CreateContexts.

(** ** Loops with an index, and access to a context through the map *)

(** [xs.forEach((x, index) => f(x, index))], from index [index] on, for a
    callback that updates a state and may throw. *)
Fixpoint forEachI {A St} (f : St -> A -> nat -> Result St) (xs : list A)
    (index : nat) (s : St) : Result St :=
  match xs with
  | [] => Ok s
  | x :: xs' => s' ← f s x index; forEachI f xs' (S index) s'
  end.

(** [xs.forEach(x => f(x))] for a callback that mutates [x] and may
    throw: the elements as the callback leaves them. *)
Fixpoint forEach {A} (f : A -> Result A) (xs : list A) : Result (list A) :=
  match xs with
  | [] => Ok []
  | x :: xs' => x' ← f x; xs'' ← forEach f xs'; Ok (x' :: xs'')
  end.

(** A loop over the indices of a shared array, for a callback that
    mutates the array and may throw: the array as the loop leaves it, and
    the exception that ended the loop, if one did. *)
Fixpoint forEachIndex {St} (f : St -> nat -> Result St) (indices : list nat)
    (s : St) : St * option Exception :=
  match indices with
  | [] => (s, None)
  | index :: indices' =>
      match f s index with
      | Ok s' => forEachIndex f indices' s'
      | Throw e => (s, Some e)
      end
  end.

(** [contextMap[tick]] together with the index of the context object;
    reading a property of the result raises when there is none. *)
Definition lookupContext {C} (contexts : Contexts.t C) (tick : Z)
  : Result (nat * C) :=
  match Contexts.map contexts !! tick with
  | Some i =>
      match Contexts.array contexts !! i with
      | Some context => Ok (i, context)
      | None => Throw TypeError
      end
  | None => Throw TypeError
  end.

(** Store the mutated context object back at its index. *)
Definition storeContext {C} (contexts : Contexts.t C) (i : nat) (context : C)
  : Contexts.t C :=
  Contexts.mk (Contexts.map contexts) (<[i := context]> (Contexts.array contexts))
    (Contexts.list contexts) (Contexts.resolutionMultiplier contexts).

(** ASCII upper case, for [String.prototype.toUpperCase]. *)
Definition upper (c : ascii) : ascii :=
  let n := nat_of_ascii c in
  if ((97 <=? n) && (n <=? 122))%nat then ascii_of_nat (n - 32) else c.

Fixpoint toUpperCase (s : string) : string :=
  match s with
  | EmptyString => EmptyString
  | String c s' => String (upper c) (toUpperCase s')
  end.

(** ** The class [Formatter] *)

Module Formatter.

(** The body of [notes.reduce((x, note) => ...)] of [SimpleFormat]: the
    note gets a modifier context and a tick context of its own, and
    the running [x] moves on.  The state is [x] and the contexts made
    so far, one pair per note. *)
Definition simpleFormatNote
    (st : num * list (ModifierContext.t * TickContext.t))
    (note : TickableRef * Tickable.t)
  : num * list (ModifierContext.t * TickContext.t) :=
  let x := st.1 in
  let modifierContext := ModifierContext.addMember note ModifierContext.new in
  let tick :=
    TickContext.preFormat (TickContext.addTickable note TickContext.new) in
  let extra := TickContext.getExtraPx tick in
  let tick := TickContext.setX (x + TickContext.left extra)%float tick in
  ((x + TickContext.getWidth tick + TickContext.right extra + 10)%float,
   st.2 ++ [(modifierContext, tick)]).

(** Helper function to layout "notes" one after the other without
    regard for proportions.  [x] is [None] when the argument is not
    passed (the default, 0); the note at [index] has the reference
    [(0, index)]. *)
Definition SimpleFormat (notes : list Tickable.t) (x : option num)
  : list (ModifierContext.t * TickContext.t) :=
  (foldl simpleFormatNote (default 0%float x, [])
         (imap (fun index note => ((0%nat, index), note)) notes)).2.

Record t : Type := mk {
  (* Minimum width required to render all the notes in the voices. *)
  minTotalWidth : num;
  (* This is set to [true] after [minTotalWidth] is calculated. *)
  hasMinTotalWidth : bool;
  (* Total number of ticks in the voice. *)
  totalTicks : Fraction.t;
  (* Arrays of tick and modifier contexts. *)
  tickContexts : option (Contexts.t TickContext.t);
  modiferContexts : option (Contexts.t ModifierContext.t)
}.

Definition constructor : t :=
  mk 0%float false (Fraction.mk 0 1) None None.

Section RestAlignment.

Variable MidLine : Q -> Q -> Q.

(** The body of [notes.forEach((note, index) => ...)] of
    [AlignRestsToNotes]; [alignTuplets] is [None] when the argument
    is not passed.  The iteration raises before it assigns. *)
Definition alignNote (alignAllNotes : bool) (alignTuplets : option bool)
    (notes : list Tickable.t) (index : nat) : Result (list Tickable.t) :=
  match notes !! index with
  | None => Ok notes
  | Some note =>
      if Tickable.isStaveNote note && Tickable.rest note then
        if bool_decide (is_Some (Tickable.tuplet note))
           && negb (default false alignTuplets) then Ok notes
        else
          (* If activated rests not on default can be rendered as
             specified. *)
          let position := toUpperCase (Tickable.glyphPosition note) in
          if negb (String.eqb position "R/4")
             && negb (String.eqb position "B/4") then Ok notes
          else if alignAllNotes
                  || bool_decide (is_Some (Tickable.beam note)) then
            (* Align rests with previous/next notes. *)
            match index with
            | O =>
                Ok (<[index := Tickable.setKeyLine
                                 (lookAhead MidLine notes
                                            (Tickable.line note)
                                            index false) note]> notes)
            | S prev =>
                match notes !! prev with
                | None => Ok notes
                | Some previous =>
                    (* If previous note is a rest, use its line
                       number. *)
                    if Tickable.rest previous then
                      (* [notes[index - 1].getKeyProps()[0].line]:
                         key 0 of a rest that is no [StaveNote] is
                         undefined *)
                      if Tickable.isStaveNote previous then
                        Ok (<[index := Tickable.setKeyLine
                                         (Tickable.line previous) note]>
                              notes)
                      else Throw TypeError
                    else
                      let restLine := Tickable.lineForRest previous in
                      (* Get the rest line for next valid non-rest
                         note group. *)
                      Ok (<[index := Tickable.setKeyLine
                                       (lookAhead MidLine notes restLine
                                                  index true) note]>
                            notes)
                end
            end
          else Ok notes
      else Ok notes
  end.

(** The notes are objects the caller shares: [AlignRestsToNotes]
    gives the notes as the loop leaves them and the exception that
    ended it, if one did. *)
Definition AlignRestsToNotes (notes : list Tickable.t)
    (alignAllNotes : bool) (alignTuplets : option bool)
  : list Tickable.t * option Exception :=
  forEachIndex (alignNote alignAllNotes alignTuplets)
               (seq 0 (length notes)) notes.

(** Find all the rests in each of the [voices] and align them to
    neighboring notes. *)
Definition alignRests (voices : option (list Voice.t))
    (alignAllNotes : bool) : Result (list Voice.t) :=
  match voices with
  | None | Some [] => Throw (RERR BadArgument)
  | Some voices =>
      forEach (fun voice =>
                 match AlignRestsToNotes (Voice.getTickables voice)
                                         alignAllNotes None with
                 | (notes, None) => Ok (Voice.setTickables notes voice)
                 | (_, Some e) => Throw e
                 end)
              voices
  end.

End RestAlignment.

(** Create [ModifierContext]s for each tick in [voices]. *)
Definition createModifierContexts (this : t) (voices : option (list Voice.t))
  : Result (Contexts.t ModifierContext.t * t) :=
  contexts ← createContexts ModifierContext.new ModifierContext.addMember
               voices;
  Ok (contexts,
      mk (minTotalWidth this) (hasMinTotalWidth this) (totalTicks this)
         (tickContexts this) (Some contexts)).

(** Create [TickContext]s for each tick in [voices].  Also calculate
    the total number of ticks in voices.  (The back-reference
    [context.tContexts] to the array is not represented.) *)
Definition createTickContexts (this : t) (voices : option (list Voice.t))
  : Result (Contexts.t TickContext.t * t) :=
  contexts ← createContexts TickContext.new TickContext.addTickable voices;
  match voices with
  | Some (voice0 :: _) =>
      Ok (contexts,
          mk (minTotalWidth this) (hasMinTotalWidth this)
             (Fraction.clone (Voice.getTicksUsed voice0))
             (Some contexts) (modiferContexts this))
  | _ => Throw TypeError
  end.

(** The callback of [contextList.map] in [preCalculateMinTotalWidth]:
    the widths come out in order, the contexts are pre-formatted. *)
Definition widthOfTick (st : list num * Contexts.t TickContext.t)
    (tick : Z) : Result (list num * Contexts.t TickContext.t) :=
  '(i, context) ← lookupContext st.2 tick;
  let context := TickContext.preFormat context in
  Ok (st.1 ++ [TickContext.getWidth context], storeContext st.2 i context).

(** Calculate the minimum width required to align and format [voices]. *)
Definition preCalculateMinTotalWidth (this : t)
    (voices : option (list Voice.t)) : Result (num * t) :=
  (* Cache results. *)
  if hasMinTotalWidth this then Ok (minTotalWidth this, this)
  else
    (* Create tick contexts if not already created. *)
    this ← match tickContexts this with
           | Some _ => Ok this
           | None =>
               match voices with
               | None => Throw (RERR BadArgument)
               | Some _ =>
                   '(_, this') ← createTickContexts this voices; Ok this'
               end
           end;
    match tickContexts this with
    | None => Throw TypeError
    | Some contexts =>
        (* Go through each tick context and calculate total width. *)
        '(widths, contexts) ←
           reduce widthOfTick (Contexts.list contexts) ([], contexts);
        let minTotalWidth := foldl PrimFloat.add 0%float widths in
        Ok (minTotalWidth,
            mk minTotalWidth true (totalTicks this) (Some contexts)
               (modiferContexts this))
    end.

(** Get minimum width required to render all voices. *)
Definition getMinTotalWidth (this : t) : Result (num * t) :=
  if negb (hasMinTotalWidth this) then Throw (RERR NoMinTotalWidth)
  else Ok (minTotalWidth this, this).

(** The state of pass 1 of [preFormat]. *)
Record Pass1 : Type := mkPass1 {
  p_x : num;
  p_shift : num;
  p_minTotalWidth : num;
  p_contexts : Contexts.t TickContext.t
}.

(** Pass 1: Give each note maximum width requested by context. *)
Definition pass1Step (renderingContext : option RenderingContext)
    (st : Pass1) (tick : Z) : Result Pass1 :=
  '(i, context) ← lookupContext (p_contexts st) tick;
  let context :=
    match renderingContext with
    | Some r => TickContext.setContext r context
    | None => context
    end in
  (* Make sure that all tickables in this context have calculated their
     space requirements. *)
  let context := TickContext.preFormat context in
  let width := TickContext.getWidth context in
  let minTotalWidth := (p_minTotalWidth st + width)%float in
  let extra := TickContext.getExtraPx context in
  let x := (p_x st + p_shift st + TickContext.left extra
            + TickContext.extraLeft extra)%float in
  let context := TickContext.setX x context in
  (* Calculate shift for the next tick. *)
  let shift :=
    (TickContext.getWidth context
     - (TickContext.left extra + TickContext.extraLeft extra))%float in
  Ok (mkPass1 x shift minTotalWidth (storeContext (p_contexts st) i context)).

Definition pass1 (renderingContext : option RenderingContext)
    (contexts : Contexts.t TickContext.t) : Result Pass1 :=
  reduce (pass1Step renderingContext) (Contexts.list contexts)
         (mkPass1 0%float 0%float 0%float contexts).

(** [contextList[index - 1] || 0] *)
Definition prevTick (contextList : list Z) (index : nat) : Z :=
  match index with
  | O => 0
  | S i => default 0 (contextList !! i)
  end.

(** [(tick - prevTick) * leftoverPxPerTick] *)
Definition tickSpace (contextList : list Z) (leftoverPxPerTick : num)
    (tick : Z) (index : nat) : num :=
  (of_Z (tick - prevTick contextList index) * leftoverPxPerTick)%float.

(** [remainingX / (this.totalTicks.value() * resolutionMultiplier)] *)
Definition leftoverPxPerTick (this : t) (resolutionMultiplier : Z)
    (remainingX : num) : num :=
  (remainingX
   / (Fraction.value (totalTicks this) * of_Z resolutionMultiplier))%float.

(** Pass 2: Take leftover width, and distribute it to proportionately
    to all notes.  The state is [spaceAccum] and the contexts. *)
Definition pass2Step (contextList : list Z) (leftoverPxPerTick : num)
    (centerX : num) (st : num * Contexts.t TickContext.t) (tick : Z)
    (index : nat) : Result (num * Contexts.t TickContext.t) :=
  '(i, context) ← lookupContext st.2 tick;
  let spaceAccum :=
    (st.1 + tickSpace contextList leftoverPxPerTick tick index)%float in
  let context :=
    TickContext.setX (TickContext.getX context + spaceAccum)%float
                     context in
  (* Move center aligned tickables to middle *)
  let context :=
    TickContext.forEachCenterAligned
      (Tickable.setCenterXShift
         (centerX - TickContext.getX context)%float)
      context in
  Ok (spaceAccum, storeContext st.2 i context).

Definition pass2 (this : t) (justifyWidth minTotalWidth : num)
    (contexts : Contexts.t TickContext.t)
  : Result (num * Contexts.t TickContext.t) :=
  let contextList := Contexts.list contexts in
  let centerX := (justifyWidth / 2)%float in
  let remainingX := (justifyWidth - minTotalWidth)%float in
  let perTick :=
    leftoverPxPerTick this (Contexts.resolutionMultiplier contexts)
                      remainingX in
  forEachI (pass2Step contextList perTick centerX) contextList 0%nat
           (0%float, contexts).

(** This is the core formatter logic.  Format voices and justify them
    to [justifyWidth] pixels ([None]: the default, 0).  The voices are
    returned as the optional Y pre-pass leaves them. *)
Definition preFormat (this : t) (justifyWidth : option num)
    (renderingContext : option RenderingContext)
    (voices : option (list Voice.t)) (stave : option Stave)
  : Result (t * option (list Voice.t)) :=
  let justifyWidth := default 0%float justifyWidth in
  (* Initialize context maps. *)
  match tickContexts this with
  | None => Throw TypeError
  | Some contexts =>
      (* If voices and a stave were provided, set the Stave for each
         voice and preFormat to apply Y values to the notes. *)
      let voices :=
        match voices, stave with
        | Some voices, Some stave =>
            Some ((fun voice => Voice.preFormat (Voice.setStave stave voice))
                  <$> voices)
        | _, _ => voices
        end in
      p ← pass1 renderingContext contexts;
      let minTotalWidth := (p_x p + p_shift p)%float in
      let contexts := p_contexts p in
      if gtb justifyWidth 0%float then
        '(_, contexts) ← pass2 this justifyWidth minTotalWidth contexts;
        Ok (mk minTotalWidth true (totalTicks this) (Some contexts)
               (modiferContexts this), voices)
      else
        Ok (mk minTotalWidth true (totalTicks this) (Some contexts)
               (modiferContexts this), voices)
  end.

(** [contexts.list.forEach(tick => contexts.map[tick].postFormat())] *)
Definition postFormatContexts {C} (postFormat : C -> C)
    (contexts : option (Contexts.t C)) : Result (Contexts.t C) :=
  match contexts with
  | None => Throw TypeError
  | Some contexts =>
      reduce (fun contexts tick =>
                '(i, context) ← lookupContext contexts tick;
                Ok (storeContext contexts i (postFormat context)))
             (Contexts.list contexts) contexts
  end.

(** This is the top-level call for all formatting logic completed after
    [x] and [y] values have been computed for the notes in the voices. *)
Definition postFormat (this : t) : Result t :=
  modifierContexts ← postFormatContexts ModifierContext.postFormat
                        (modiferContexts this);
  contexts ← postFormatContexts TickContext.postFormat (tickContexts this);
  Ok (mk (minTotalWidth this) (hasMinTotalWidth this) (totalTicks this)
         (Some contexts) (Some modifierContexts)).

(** Take all [voices] and create [ModifierContext]s out of them. *)
Definition joinVoices (this : t) (voices : option (list Voice.t))
  : Result t :=
  '(_, this) ← createModifierContexts this voices;
  Ok (mk (minTotalWidth this) false (totalTicks this) (tickContexts this)
         (modiferContexts this)).

(** The [options] of [format]; a key that is absent has its default. *)
Record Options : Type := mkOptions {
  align_rests : bool;
  context : option RenderingContext;
  stave : option Stave
}.

Definition defaults : Options := mkOptions false None None.

(** The tickables of the voices are the objects the tick contexts
    hold: copy the [center_x_shift] pass 2 assigned through a context
    to the voice's tickable at the same reference. *)
Definition shareTickable (voices : list Voice.t)
    (member : TickableRef * Tickable.t) : list Voice.t :=
  alter (fun voice =>
           Voice.setTickables
             (alter (Tickable.setCenterXShift
                       (Tickable.center_x_shift member.2))
                    member.1.2 (Voice.getTickables voice))
             voice)
        member.1.1 voices.

Definition shareTickables (contexts : Contexts.t TickContext.t)
    (voices : list Voice.t) : list Voice.t :=
  foldl (fun voices context =>
           foldl shareTickable voices (TickContext.tickables context))
        voices (Contexts.array contexts).

Section Format.

Variable MidLine : Q -> Q -> Q.

(** Align rests in voices, justify the contexts, and position the
    notes so voices are aligned and ready to render onto the stave. *)
Definition format (this : t) (voices : option (list Voice.t))
    (justifyWidth : option num) (options : option Options)
  : Result (t * list Voice.t) :=
  let opts := default defaults options in
  voices ← alignRests MidLine voices (align_rests opts);
  '(_, this) ← createTickContexts this (Some voices);
  '(this, voices') ← preFormat this justifyWidth (context opts)
                       (Some voices) (stave opts);
  let voices := default voices voices' in
  let voices :=
    match tickContexts this with
    | Some contexts => shareTickables contexts voices
    | None => voices
    end in
  (* Only postFormat if a stave was supplied for y value formatting *)
  match stave opts with
  | Some _ => this ← postFormat this; Ok (this, voices)
  | None => Ok (this, voices)
  end.

End Format.

(** The keys an [options] object holds; [None] for a key that is
    absent. *)
Record Keys : Type := mkKeys {
  key_align_rests : option bool;
  key_context : option (option RenderingContext);
  key_stave : option (option Stave)
}.

(** [Vex.Merge(destination, source)] of [vex.js] is missing from the
    sources; it is taken to copy every key of [source] over
    [destination]. *)
Definition Merge (destination : Keys) (source : option Keys) : Keys :=
  match source with
  | None => destination
  | Some source =>
      mkKeys
        (match key_align_rests source with
         | Some v => Some v
         | None => key_align_rests destination
         end)
        (match key_context source with
         | Some v => Some v
         | None => key_context destination
         end)
        (match key_stave source with
         | Some v => Some v
         | None => key_stave destination
         end)
  end.

(** The options [format] works with once the keys are merged over its
    defaults. *)
Definition overDefaults (keys : Keys) : Options :=
  mkOptions (default (align_rests defaults) (key_align_rests keys))
            (default (context defaults) (key_context keys))
            (default (stave defaults) (key_stave keys)).

Section FormatToStave.

Variable MidLine : Q -> Q -> Q.
(** What [formatToStave] reads from the stave. *)
Variables getNoteStartX getNoteEndX : Stave -> num.
Variable getContext : Stave -> option RenderingContext.

(** This method is just like [format] except that the [justifyWidth]
    is inferred from the [stave]. *)
Definition formatToStave (this : t) (voices : option (list Voice.t))
    (stave : Stave) (options : option Keys)
  : Result (t * list Voice.t) :=
  let justifyWidth :=
    (getNoteEndX stave - getNoteStartX stave - 10)%float in
  let opts := mkKeys None (Some (getContext stave)) None in
  let opts := Merge opts options in
  format MidLine this voices (Some justifyWidth)
         (Some (overDefaults opts)).

End FormatToStave.

End Formatter.

(** ** Sequences of calls on one formatter *)

(** A call of a method of the formatter, with its arguments. *)
Inductive Call : Type :=
| AlignRests (voices : option (list Voice.t)) (alignAllNotes : bool)
| PreCalculateMinTotalWidth (voices : option (list Voice.t))
| GetMinTotalWidth
| CreateModifierContexts (voices : option (list Voice.t))
| CreateTickContexts (voices : option (list Voice.t))
| PreFormat (justifyWidth : option num)
            (renderingContext : option RenderingContext)
            (voices : option (list Voice.t)) (stave : option Stave)
| PostFormat
| JoinVoices (voices : option (list Voice.t))
| Format (voices : option (list Voice.t)) (justifyWidth : option num)
         (options : option Formatter.Options).

(** What a call did to the minimum-width cache. *)
Inductive Event : Type :=
| Computed (width : num)  (* a width computation completed *)
| Invalidated             (* the cache was invalidated *)
| Neither.

Section Calls.

Variable MidLine : Q -> Q -> Q.

(** The formatter after [postFormat]: when the tick contexts are
    missing, the modifier contexts are post-formatted already. *)
Definition afterPostFormat (this : Formatter.t) : Formatter.t :=
  match Formatter.postFormatContexts ModifierContext.postFormat
          (Formatter.modiferContexts this) with
  | Throw _ => this
  | Ok modifierContexts =>
      let this :=
        Formatter.mk (Formatter.minTotalWidth this)
          (Formatter.hasMinTotalWidth this) (Formatter.totalTicks this)
          (Formatter.tickContexts this) (Some modifierContexts) in
      match Formatter.postFormatContexts TickContext.postFormat
              (Formatter.tickContexts this) with
      | Throw _ => this
      | Ok contexts =>
          Formatter.mk (Formatter.minTotalWidth this)
            (Formatter.hasMinTotalWidth this) (Formatter.totalTicks this)
            (Some contexts) (Formatter.modiferContexts this)
      end
  end.

(** The formatter after a call.  A method that throws keeps what it
    assigned before it threw.  On tick contexts built by
    [createContexts] no lookup fails, so that every method but
    [postFormat] and [format] throws before its first assignment to
    the formatter, and leaves it as it was. *)
Definition after (this : Formatter.t) (call : Call) : Formatter.t :=
  match call with
  | AlignRests _ _ | GetMinTotalWidth => this
  | PreCalculateMinTotalWidth voices =>
      match Formatter.preCalculateMinTotalWidth this voices with
      | Ok (_, this') => this'
      | Throw _ => this
      end
  | CreateModifierContexts voices =>
      match Formatter.createModifierContexts this voices with
      | Ok (_, this') => this'
      | Throw _ => this
      end
  | CreateTickContexts voices =>
      match Formatter.createTickContexts this voices with
      | Ok (_, this') => this'
      | Throw _ => this
      end
  | PreFormat justifyWidth renderingContext voices stave =>
      match Formatter.preFormat this justifyWidth renderingContext voices
              stave with
      | Ok (this', _) => this'
      | Throw _ => this
      end
  | PostFormat => afterPostFormat this
  | JoinVoices voices =>
      match Formatter.joinVoices this voices with
      | Ok this' => this'
      | Throw _ => this
      end
  | Format voices justifyWidth options =>
      let opts := default Formatter.defaults options in
      match Formatter.alignRests MidLine voices
              (Formatter.align_rests opts) with
      | Throw _ => this
      | Ok voices =>
          match Formatter.createTickContexts this (Some voices) with
          | Throw _ => this
          | Ok (_, this) =>
              match Formatter.preFormat this justifyWidth
                      (Formatter.context opts) (Some voices)
                      (Formatter.stave opts) with
              | Throw _ => this
              | Ok (this, _) =>
                  match Formatter.stave opts with
                  | Some _ => afterPostFormat this
                  | None => this
                  end
              end
          end
      end
  end.

(** A width computation completes when [preCalculateMinTotalWidth] or
    [preFormat], called directly or by [format], returns; the cache
    is invalidated when [joinVoices] returns. *)
Definition event (this : Formatter.t) (call : Call) : Event :=
  match call with
  | PreCalculateMinTotalWidth voices =>
      match Formatter.preCalculateMinTotalWidth this voices with
      | Ok (width, _) => Computed width
      | Throw _ => Neither
      end
  | PreFormat justifyWidth renderingContext voices stave =>
      match Formatter.preFormat this justifyWidth renderingContext voices
              stave with
      | Ok (this', _) => Computed (Formatter.minTotalWidth this')
      | Throw _ => Neither
      end
  | Format voices justifyWidth options =>
      let opts := default Formatter.defaults options in
      match Formatter.alignRests MidLine voices
              (Formatter.align_rests opts) with
      | Throw _ => Neither
      | Ok voices =>
          match Formatter.createTickContexts this (Some voices) with
          | Throw _ => Neither
          | Ok (_, this) =>
              match Formatter.preFormat this justifyWidth
                      (Formatter.context opts) (Some voices)
                      (Formatter.stave opts) with
              | Throw _ => Neither
              | Ok (this', _) => Computed (Formatter.minTotalWidth this')
              end
          end
      end
  | JoinVoices voices =>
      match Formatter.joinVoices this voices with
      | Ok _ => Invalidated
      | Throw _ => Neither
      end
  | _ => Neither
  end.

(** The events of a sequence of calls, from the formatter [this]. *)
Fixpoint history (this : Formatter.t) (calls : list Call) : list Event :=
  match calls with
  | [] => []
  | call :: calls' => event this call :: history (after this call) calls'
  end.

(** The formatter after a sequence of calls on a new formatter. *)
Definition run (calls : list Call) : Formatter.t :=
  foldl after Formatter.constructor calls.

End Calls.

(** How an event changes the cached width. *)
Definition cacheStep (cache : option num) (e : Event) : option num :=
  match e with
  | Computed width => Some width
  | Invalidated => None
  | Neither => cache
  end.

(** The width of the last computation that completed since the formatter
    was constructed or the cache was last invalidated, if there is one. *)
Definition cached (events : list Event) : option num :=
  foldl cacheStep None events.

(** ** Notions the statements use *)



(** A rest [AlignRestsToNotes] aligns: a stave-note rest, not skipped for
    its tuplet, at a default glyph position, and either every note is
    aligned or the rest is beamed. *)
Definition eligible (alignAllNotes : bool) (alignTuplets : option bool)
    (note : Tickable.t) : bool :=
  Tickable.isStaveNote note && Tickable.rest note
  && negb (bool_decide (is_Some (Tickable.tuplet note))
           && negb (default false alignTuplets))
  && (String.eqb (toUpperCase (Tickable.glyphPosition note)) "R/4"
      || String.eqb (toUpperCase (Tickable.glyphPosition note)) "B/4")
  && (alignAllNotes || bool_decide (is_Some (Tickable.beam note))).

(** The line of the tickable at a reference. *)
Definition lineAt (voices : list Voice.t) (vi ti : nat) : option Q :=
  voice ← voices !! vi;
  note ← Voice.getTickables voice !! ti;
  Some (Tickable.line note).

(** A voice's total ticks differ from the first voice's. *)
Definition mismatched (totalTicks : Fraction.t) (voice : Voice.t) : bool :=
  negb (Fraction.equals (Voice.getTotalTicks voice) totalTicks).

(** A voice is in strict mode and not complete. *)
Definition incomplete (voice : Voice.t) : bool :=
  Voice.Mode_eqb (Voice.getMode voice) Voice.STRICT
  && negb (Voice.isComplete voice).

(** A voice passes validation against the first voice's total ticks. *)
Definition valid (totalTicks : Fraction.t) (voice : Voice.t) : Prop :=
  mismatched totalTicks voice = false ∧ incomplete voice = false.

(** The least common multiple, seeded at 1, of the voices' resolution
    multipliers. *)
Definition lcmOfMultipliers (voices : list Voice.t) : Z :=
  foldl Z.lcm 1 (map Voice.getResolutionMultiplier voices).

(** The running total of ticks when tickable [ti] of a voice is visited:
    its start time, over the shared denominator. *)
Definition startTime (resolutionMultiplier : Z) (voice : Voice.t) (ti : nat)
  : Fraction.t :=
  foldl Fraction.add (Fraction.mk 0 resolutionMultiplier)
        (Tickable.ticks <$> take ti (Voice.getTickables voice)).

(** The integer tick coordinate of a tickable: the numerator of its
    start time. *)
Definition integerTick (resolutionMultiplier : Z) (voice : Voice.t) (ti : nat)
  : Z :=
  Fraction.numerator (startTime resolutionMultiplier voice ti).

(** A tick coordinate occurs across the voices. *)
Definition occurs (resolutionMultiplier : Z) (voices : list Voice.t) (tick : Z)
  : Prop :=
  ∃ vi voice ti,
    voices !! vi = Some voice
    ∧ (ti < length (Voice.getTickables voice))%nat
    ∧ tick = integerTick resolutionMultiplier voice ti.

(** The tickables the grid loop visits, in order, each with its reference
    and the tick at which it is visited. *)
Fixpoint visits (vi ti : nat) (tickables : list Tickable.t)
    (ticksUsed : Fraction.t) : list (TickableRef * Tickable.t * Z) :=
  match tickables with
  | [] => []
  | tickable :: tickables' =>
      ((vi, ti), tickable, Fraction.numerator ticksUsed)
      :: visits vi (S ti) tickables'
           (Fraction.add ticksUsed (Tickable.ticks tickable))
  end.

Fixpoint allVisits (vi : nat) (voices : list Voice.t)
    (resolutionMultiplier : Z) : list (TickableRef * Tickable.t * Z) :=
  match voices with
  | [] => []
  | voice :: voices' =>
      visits vi 0 (Voice.getTickables voice)
             (Fraction.mk 0 resolutionMultiplier)
      ++ allVisits (S vi) voices' resolutionMultiplier
  end.

(** Every tick of the list has a context behind it. *)
Definition wellFormed {C} (cs : Contexts.t C) : Prop :=
  ∀ tick, tick ∈ Contexts.list cs →
    ∃ i, Contexts.map cs !! tick = Some i
         ∧ (i < length (Contexts.array cs))%nat.

(** The width a tick context reports once it is pre-formatted. *)
Definition reportedWidth (cs : Contexts.t TickContext.t) (tick : Z) : num :=
  match Contexts.get cs tick with
  | Some context => TickContext.getWidth (TickContext.preFormat context)
  | None => 0%float
  end.

(** The padding a tick context reports once it is pre-formatted. *)
Definition reportedExtra (cs : Contexts.t TickContext.t) (tick : Z)
  : TickContext.ExtraPx :=
  match Contexts.get cs tick with
  | Some context => TickContext.getExtraPx (TickContext.preFormat context)
  | None => TickContext.mkExtra 0%float 0%float 0%float 0%float
  end.

(** The plain sum of every context's reported width, in tick order, as
    [reduce((a, b) => a + b, 0)] adds them. *)
Definition sumOfWidths (cs : Contexts.t TickContext.t) : num :=
  foldl PrimFloat.add 0%float (reportedWidth cs <$> Contexts.list cs).


(** One step of pass 1 on the pair of [x] and [shift], for a context that
    reports the width [w] and the left and extra-left padding [l] and
    [e]. *)
Definition advance (xs : num * num) (w l e : num) : num * num :=
  ((xs.1 + xs.2 + l + e)%float, (w - (l + e))%float).

(** [x] and [shift] after pass 1 over the ticks, from the pair [xs]. *)
Definition minimumLayout (cs : Contexts.t TickContext.t) (ticks : list Z)
    (xs : num * num) : num * num :=
  foldl (λ xs tick,
           advance xs (reportedWidth cs tick)
                   (TickContext.left (reportedExtra cs tick))
                   (TickContext.extraLeft (reportedExtra cs tick)))
        xs ticks.

(** The pass-2 increments, one per tick context, in tick order. *)
Definition tickSpaces (contextList : list Z) (perTick : num) : list num :=
  imap (λ index tick, Formatter.tickSpace contextList perTick tick index)
       contextList.

(** A sum of numbers, accumulated from 0 as [spaceAccum] is. *)
Definition total (l : list num) : num := foldl PrimFloat.add 0%float l.


(** Two numbers are the same double, or compare equal as [+0] and [-0]
    do. *)
Definition same (a b : num) : Prop := a = b ∨ (a =? b)%float = true.


(** The positions the contexts hold, in creation order. *)
Definition positions (cs : Contexts.t TickContext.t) : list num :=
  TickContext.getX <$> Contexts.array cs.

(** ** Notions the proofs use *)

(** The invariant of the grid loop, over the log of the visits so far:
    the tick list is the ticks of the log; the map is defined at these
    ticks, is injective, and points into the contexts; every context
    holds the tickables logged at its tick, in order. *)
Record Inv {C : Type} (members : C → list (TickableRef * Tickable.t))
    (g : @Grid C) (log : list (TickableRef * Tickable.t * Z)) : Prop := {
  inv_list : tickList g = log.*2;
  inv_dom : ∀ tick, is_Some (tickToContextMap g !! tick) ↔ tick ∈ log.*2;
  inv_range : ∀ tick i, tickToContextMap g !! tick = Some i →
                (i < length (contexts g))%nat;
  inv_inj : ∀ t1 t2 i, tickToContextMap g !! t1 = Some i →
              tickToContextMap g !! t2 = Some i → t1 = t2;
  inv_size : length (contexts g) = size (tickToContextMap g);
  inv_members : ∀ i c, contexts g !! i = Some c →
    members c
    = (filter (λ e, tickToContextMap g !! e.2 = Some i) log).*1
}.

(** The widths and padding of the members of a tick context. *)
Definition metrics (c : TickContext.t)
  : list (num * num * num * num * num) :=
  (λ m : TickableRef * Tickable.t,
     (Tickable.width m.2, Tickable.leftPx m.2, Tickable.rightPx m.2,
      Tickable.extraLeftPx m.2, Tickable.extraRightPx m.2))
  <$> TickContext.tickables c.

(** Contexts that differ in what the passes assign only: same map, same
    ticks, same multiplier, and at every index contexts with the same
    member widths and padding. *)
Record sim (cs cs' : Contexts.t TickContext.t) : Prop := {
  sim_map : Contexts.map cs' = Contexts.map cs;
  sim_list : Contexts.list cs' = Contexts.list cs;
  sim_rm : Contexts.resolutionMultiplier cs' = Contexts.resolutionMultiplier cs;
  sim_array : metrics <$> Contexts.array cs' = metrics <$> Contexts.array cs
}.

(** The tick deltas, [tick - prevTick], of a tick list. *)
Definition deltas (L : list Z) : list Z :=
  imap (λ index tick, tick - Formatter.prevTick L index) L.

(** The flag and the stored width agree with the events so far. *)
Definition cacheInv (this : Formatter.t) (cache : option num) : Prop :=
  match cache with
  | Some width => Formatter.hasMinTotalWidth this = true
                  ∧ Formatter.minTotalWidth this = width
  | None => Formatter.hasMinTotalWidth this = false
  end.

(** The tick contexts, once built, have a context behind every tick, and
    a valid cache comes with tick contexts. *)
Definition goodState (this : Formatter.t) : Prop :=
  (∀ cs, Formatter.tickContexts this = Some cs → wellFormed cs)
  ∧ (Formatter.hasMinTotalWidth this = true →
     is_Some (Formatter.tickContexts this)).

(** ** Concrete inputs *)

Module Examples.

(** The exact midpoint, as one instance of [Vex.MidLine]. *)
Definition exactMidLine (top bot : Q) : Q := (bot + (top - bot) / 2)%Q.

(** A pitched quarter note of the given width, on line 5. *)
Definition quarter (w : num) : Tickable.t :=
  Tickable.mk (Fraction.mk 1 1) false w 0%float 0%float 0%float 0%float
              false 0%float true false None None EmptyString 5%Q 5%Q.

(** A pitched quarter note whose line, also for rests, is [l]. *)
Definition pitched (l : Q) : Tickable.t :=
  Tickable.mk (Fraction.mk 1 1) false 10%float 0%float 0%float 0%float
              0%float false 0%float true false None None EmptyString l l.

(** A quarter rest on line 3 at the default position, in a tuplet or
    not. *)
Definition quarterRest (tuplet : option Handle) : Tickable.t :=
  Tickable.mk (Fraction.mk 1 1) false 10%float 0%float 0%float 0%float
              0%float false 0%float true true tuplet None "b/4" 3%Q 3%Q.

(** A ghost note: a rest that is no stave note, and has no key
    properties. *)
Definition ghostNote : Tickable.t :=
  Tickable.mk (Fraction.mk 1 1) false 10%float 0%float 0%float 0%float
              0%float false 0%float false true None None EmptyString
              0%Q 0%Q.


(** A bar line: no ticks, ignored for tick accounting. *)
Definition barNote : Tickable.t :=
  Tickable.mk (Fraction.mk 0 1) true 10%float 0%float 0%float 0%float
              0%float false 0%float false false None None EmptyString
              0%Q 0%Q.

(** A soft 4/4 voice holding [notes], all of them quarters. *)
Definition fourFour (notes : list Tickable.t) : Voice.t :=
  Voice.mk notes (Fraction.mk 4 1)
           (Fraction.mk (Z.of_nat (length notes)) 1) 1 Voice.SOFT None false.

Definition twoVoices : list Voice.t :=
  [fourFour (quarter <$> [20; 15; 25; 18]%float);
   fourFour (quarter <$> [10; 12; 10; 14]%float)].

(** A strict voice holding one quarter of its four, and a voice of
    three beats. *)
Definition strictIncomplete : Voice.t :=
  Voice.mk [quarter 10%float] (Fraction.mk 4 1) (Fraction.mk 1 1) 1
           Voice.STRICT None false.

Definition threeBeats : Voice.t :=
  Voice.mk [quarter 10%float] (Fraction.mk 3 1) (Fraction.mk 1 1) 1
           Voice.SOFT None false.

Definition badVoices : list Voice.t := [strictIncomplete; threeBeats].

(** Voices over halves and thirds of a beat. *)
Definition halves : Voice.t :=
  Voice.mk [quarter 10%float] (Fraction.mk 4 1) (Fraction.mk 1 2) 2
           Voice.SOFT None false.

Definition thirds : Voice.t :=
  Voice.mk [quarter 10%float] (Fraction.mk 4 1) (Fraction.mk 1 3) 3
           Voice.SOFT None false.

(** Two rests, the second in no tuplet, then a pitched note. *)
Definition restRestNote : list Tickable.t :=
  [quarterRest None; quarterRest None; quarter 10%float].

(** A rest in a tuplet, then a pitched note. *)
Definition tupletRestNote : list Tickable.t :=
  [quarterRest (Some 1%nat); quarter 10%float].

(** A ghost note, then a rest. *)
Definition ghostThenRest : list Tickable.t :=
  [ghostNote; quarterRest None].

(** A voice that holds a bar line only: no ticks are used. *)
Definition onlyBar : Voice.t :=
  Voice.mk [barNote] (Fraction.mk 4 1) (Fraction.mk 0 1) 1
           Voice.SOFT None false.

End Examples.

(** * Proofs *)

(** ** Doubles, through their specification *)

















(** *** Rounding a sum never goes below a summand *)


















(** *** [Math.max] from 0 *)







(** *** Comparisons *)

Lemma positive_finite (p : float) :
  (0 <? p)%float = true → (p <? infinity)%float = true →
  ∃ m e, Prim2SF p = S754_finite false m e.
Proof.
  rewrite !ltb_spec.
  change (Prim2SF 0) with (S754_zero false).
  change (Prim2SF infinity) with (S754_infinity false).
  destruct (Prim2SF p) as [[]|[]| |[] m e]; try done. eauto.
Qed.



Lemma SFeqb_true (x y : spec_float) :
  SFeqb x y = true →
  x = y ∨ (∃ s t, x = S754_zero s ∧ y = S754_zero t).
Proof.
  unfold SFeqb, SFcompare.
  destruct x as [s|s| |s m e], y as [t|t| |t m' e']; try done;
    try (by destruct s); try (by destruct t); try (by destruct s, t; eauto).
  destruct s, t; try done.
  - destruct (Z.compare_spec e e') as [->| |]; try done.
    rewrite Pos.compare_cont_spec. simpl.
    destruct (Pos.compare_spec m m') as [->| |]; try done. by left.
  - destruct (Z.compare_spec e e') as [->| |]; try done.
    rewrite Pos.compare_cont_spec. simpl.
    destruct (Pos.compare_spec m m') as [->| |]; try done. by left.
Qed.

Lemma same_spec (a b : float) :
  same a b ↔
  a = b ∨ ((∃ s, Prim2SF a = S754_zero s) ∧ (∃ t, Prim2SF b = S754_zero t)).
Proof.
  unfold same. split; (intros [->|H]; [by left|]).
  - rewrite FloatAxioms.eqb_spec in H.
    destruct (SFeqb_true _ _ H) as [E|(s & t & Ea & Eb)].
    + left. by apply Prim2SF_inj.
    + right. eauto.
  - destruct H as [[s Ea] [t Eb]]. right.
    by rewrite FloatAxioms.eqb_spec, Ea, Eb.
Qed.

Lemma same_trans (a b c : float) : same a b → same b c → same a c.
Proof.
  rewrite !same_spec.
  intros [->|[Ha Hb]] [->|[Hb' Hc]]; eauto.
Qed.

(** *** Zero *)

Lemma same_refl (a : float) : same a a.
Proof. by left. Qed.

Lemma SFsub_diag (s : bool) (m : positive) (e : Z) :
  SFsub prec emax (S754_finite s m e) (S754_finite s m e) = S754_zero false.
Proof. unfold SFsub. by rewrite Z.sub_diag. Qed.

(** A positive finite double minus itself is [+0]. *)
Lemma sub_diag (a : float) :
  (0 <? a)%float = true → (a <? infinity)%float = true → (a - a)%float = 0%float.
Proof.
  intros H0 Hinf. destruct (positive_finite a H0 Hinf) as (m & e & Ha).
  apply Prim2SF_inj. by rewrite sub_spec, Ha, SFsub_diag.
Qed.

(** [+0] divided by a positive double is [+0]. *)
Lemma zero_div (d : float) : (0 <? d)%float = true → (0 / d)%float = 0%float.
Proof.
  rewrite ltb_spec. intros Hd. apply Prim2SF_inj. rewrite div_spec.
  change (Prim2SF 0) with (S754_zero false) in *.
  by destruct (Prim2SF d) as [[]|[]| |[] m e].
Qed.

Lemma is_finite_spec (a : float) :
  is_finite a = true →
  (∃ s, Prim2SF a = S754_zero s) ∨ (∃ s m e, Prim2SF a = S754_finite s m e).
Proof.
  unfold is_finite, is_nan, is_infinity.
  rewrite !FloatAxioms.eqb_spec, abs_spec.
  change (Prim2SF infinity) with (S754_infinity false).
  destruct (Prim2SF a) as [s|s| |s m e]; eauto; try done.
  by destruct s.
Qed.

(** A finite double times [+0] is a zero. *)
Lemma mul_zero (a : float) :
  is_finite a = true → ∃ s, Prim2SF (a * 0) = S754_zero s.
Proof.
  intros Ha. rewrite mul_spec. change (Prim2SF 0) with (S754_zero false).
  destruct (is_finite_spec a Ha) as [[s E]|(s & m & e & E)]; rewrite E;
    simpl; eauto.
Qed.

Lemma add_zeros (a b : float) :
  (∃ s, Prim2SF a = S754_zero s) → (∃ s, Prim2SF b = S754_zero s) →
  ∃ s, Prim2SF (a + b) = S754_zero s.
Proof.
  intros [s Ha] [t Hb]. rewrite add_spec, Ha, Hb. destruct s, t; simpl; eauto.
Qed.

(** Adding a zero gives the same number. *)
Lemma add_zero_same (x a : float) :
  (∃ s, Prim2SF a = S754_zero s) → same (x + a) x.
Proof.
  intros [s Ha]. unfold same.
  destruct (Prim2SF x) as [t|t| |t m e] eqn:Hx.
  - right. rewrite FloatAxioms.eqb_spec, add_spec, Hx, Ha.
    by destruct t, s.
  - left. apply Prim2SF_inj. by rewrite add_spec, Hx, Ha.
  - left. apply Prim2SF_inj. by rewrite add_spec, Hx, Ha.
  - left. apply Prim2SF_inj. by rewrite add_spec, Hx, Ha.
Qed.

Lemma bind_Ok {A B} (r : Result A) (k : A → Result B) (b : B) :
  (r ≫= k) = Ok b → ∃ a, r = Ok a ∧ k a = Ok b.
Proof. destruct r as [a|e]; [eauto|done]. Qed.

Lemma bind_Throw {A B} (r : Result A) (k : A → Result B) (e : Exception) :
  (r ≫= k) = Throw e → r = Throw e ∨ ∃ a, r = Ok a ∧ k a = Throw e.
Proof. destruct r as [a|e']; [eauto|]. intros [= ->]. by left. Qed.

Section Validation.
Variable totalTicks : Fraction.t.
Local Abbreviation f := (foldMultiplier totalTicks).

Lemma foldMultiplier_cases (acc : Z) (voice : Voice.t) :
  (mismatched totalTicks voice = true ∧ f acc voice = Throw (RERR TickMismatch))
  ∨ (mismatched totalTicks voice = false ∧ incomplete voice = true
     ∧ f acc voice = Throw (RERR IncompleteVoice))
  ∨ (valid totalTicks voice
     ∧ f acc voice
       = Ok (Z.max acc (Z.lcm acc (Voice.getResolutionMultiplier voice)))).
Proof.
  unfold foldMultiplier, valid, mismatched, incomplete.
  destruct (negb _); [by left|].
  destruct (_ && _); [right; by left|]. right; by right.
Qed.

Lemma reduce_valid (voices : list Voice.t) (acc : Z) :
  Forall (valid totalTicks) voices →
  ∃ r, reduce f voices acc = Ok r ∧ acc ≤ r.
Proof.
  intros Hv. revert acc. induction Hv as [|v vs Hv _ IH]; intros acc.
  - exists acc. split; [done|lia].
  - destruct (foldMultiplier_cases acc v)
      as [[Hm _]|[(_ & Hi & _)|[_ Hok]]].
    + destruct Hv; congruence.
    + destruct Hv; congruence.
    + simpl. rewrite Hok. simpl.
      destruct (IH (Z.max acc (Z.lcm acc (Voice.getResolutionMultiplier v))))
        as (r & -> & Hr).
      exists r. split; [done|lia].
Qed.

(** The reduction stops at the first voice that fails validation. *)
Lemma reduce_Throw (voices : list Voice.t) (acc : Z) (e : Exception) :
  reduce f voices acc = Throw e ↔
  ∃ pre v post, voices = pre ++ v :: post
    ∧ Forall (valid totalTicks) pre
    ∧ ((mismatched totalTicks v = true ∧ e = RERR TickMismatch)
       ∨ (mismatched totalTicks v = false ∧ incomplete v = true
          ∧ e = RERR IncompleteVoice)).
Proof.
  revert acc. induction voices as [|v vs IH]; intros acc.
  - split; [done|]. intros (pre & v & post & Heq & _).
    by destruct pre.
  - simpl. destruct (foldMultiplier_cases acc v)
      as [[Hm Hf]|[(Hm & Hi & Hf)|[Hv Hf]]]; rewrite Hf; simpl.
    + split.
      * intros [= <-]. exists [], v, vs. eauto.
      * intros (pre & v' & post & Heq & Hpre & Hv').
        destruct pre as [|u pre]; simplify_eq/=.
        -- destruct Hv' as [[_ ->]|(? & _)]; [done|congruence].
        -- apply Forall_cons in Hpre as [[? _] _]. congruence.
    + split.
      * intros [= <-]. exists [], v, vs. eauto 10.
      * intros (pre & v' & post & Heq & Hpre & Hv').
        destruct pre as [|u pre]; simplify_eq/=.
        -- destruct Hv' as [[? _]|(_ & _ & ->)]; [congruence|done].
        -- apply Forall_cons in Hpre as [[_ ?] _]. congruence.
    + rewrite IH. split.
      * intros (pre & v' & post & -> & Hpre & Hv').
        exists (v :: pre), v', post. split; [done|]. split; [|done].
        by constructor.
      * intros (pre & v' & post & Heq & Hpre & Hv').
        destruct pre as [|u pre]; simplify_eq/=.
        -- destruct Hv as [Hv1 Hv2].
           destruct Hv' as [[? _]|(_ & ? & _)]; congruence.
        -- apply Forall_cons in Hpre as [_ Hpre]. eauto 10.
Qed.

Lemma reduce_Ok (voices : list Voice.t) (acc : Z) :
  (∃ r, reduce f voices acc = Ok r) ↔ Forall (valid totalTicks) voices.
Proof.
  split.
  - intros [r Hr]. apply Forall_forall. intros v Hin.
    apply list_elem_of_split in Hin as (pre & post & ->).
    revert acc Hr. induction pre as [|u pre IH]; intros acc Hr; simpl in Hr.
    + destruct (foldMultiplier_cases acc v)
        as [[_ Hf]|[(_ & _ & Hf)|[Hv _]]]; [by rewrite Hf in Hr..|done].
    + destruct (f acc u) as [a|]; [|done]. by eapply IH.
  - intros Hv. destruct (reduce_valid voices acc Hv) as (r & ? & _). eauto.
Qed.

Lemma reduce_ge (voices : list Voice.t) (acc r : Z) :
  reduce f voices acc = Ok r → acc ≤ r.
Proof.
  intros Hr. assert (Hv : Forall (valid totalTicks) voices)
    by (apply (proj1 (reduce_Ok voices acc)); eauto).
  destruct (reduce_valid voices acc Hv) as (r' & Hr' & ?). congruence.
Qed.

Lemma reduce_lcm (voices : list Voice.t) (acc r : Z) :
  reduce f voices acc = Ok r → 1 ≤ acc →
  Forall (λ voice, 1 ≤ Voice.getResolutionMultiplier voice) voices →
  r = foldl Z.lcm acc (map Voice.getResolutionMultiplier voices).
Proof.
  revert acc. induction voices as [|v vs IH]; intros acc Hr Hacc Hpos.
  - by injection Hr.
  - apply Forall_cons in Hpos as [Hv Hpos]. simpl in Hr.
    destruct (foldMultiplier_cases acc v)
      as [[_ Hf]|[(_ & _ & Hf)|[_ Hf]]]; rewrite Hf in Hr; [done..|].
    simpl in Hr |- *.
    assert (Hle : acc ≤ Z.lcm acc (Voice.getResolutionMultiplier v)).
    { apply Z.divide_pos_le; [|apply Z.divide_lcm_l].
      pose proof (Z.lcm_nonneg acc (Voice.getResolutionMultiplier v)).
      assert (Z.lcm acc (Voice.getResolutionMultiplier v) ≠ 0); [|lia].
      rewrite Z.lcm_eq_0. lia. }
    rewrite Z.max_r in Hr by done. apply IH; [done|lia|done].
Qed.
End Validation.

Section CreateContextsFacts.
Context {C : Type} (new : C) (add : TickableRef * Tickable.t → C → C).

Lemma createContexts_Some (voice0 : Voice.t) (rest : list Voice.t) :
  createContexts new add (Some (voice0 :: rest))
  = (reduce (foldMultiplier (Voice.getTotalTicks voice0)) (voice0 :: rest) 1
     ≫= λ resolutionMultiplier,
       let g := forEachVoice new add 0 (voice0 :: rest) resolutionMultiplier
                  (mkGrid ∅ [] []) in
       Ok (Contexts.mk (tickToContextMap g) (contexts g)
             (Vex.SortAndUnique (tickList g) (λ a b, a - b) Z.eqb)
             resolutionMultiplier)).
Proof. done. Qed.

Lemma createContexts_Throw (voice0 : Voice.t) (rest : list Voice.t) e :
  createContexts new add (Some (voice0 :: rest)) = Throw e ↔
  reduce (foldMultiplier (Voice.getTotalTicks voice0)) (voice0 :: rest) 1
  = Throw e.
Proof.
  rewrite createContexts_Some.
  destruct (reduce _ _ _) as [r|e']; unfold mbind, Result_bind; split; congruence.
Qed.

Lemma createContexts_Ok (voices : option (list Voice.t)) (cs : Contexts.t C) :
  createContexts new add voices = Ok cs →
  ∃ voice0 rest,
    voices = Some (voice0 :: rest)
    ∧ reduce (foldMultiplier (Voice.getTotalTicks voice0)) (voice0 :: rest) 1
      = Ok (Contexts.resolutionMultiplier cs)
    ∧ let g := forEachVoice new add 0 (voice0 :: rest)
                 (Contexts.resolutionMultiplier cs) (mkGrid ∅ [] []) in
      cs = Contexts.mk (tickToContextMap g) (contexts g)
             (Vex.SortAndUnique (tickList g) (λ a b, a - b) Z.eqb)
             (Contexts.resolutionMultiplier cs).
Proof.
  destruct voices as [[|voice0 rest]|]; [done| |done].
  rewrite createContexts_Some. intros H.
  apply bind_Ok in H as (r & Hr & H). simpl in H. injection H as <-.
  exists voice0, rest. simpl. eauto.
Qed.
End CreateContextsFacts.

(** C4 as stated fails: with a strict, incomplete first voice and a second
    voice of another total, [createContexts] raises [IncompleteVoice],
    although some voice's total ticks differ from the first voice's. *)
Lemma TickMismatch_not_exactly_when_some_voice_differs :
  ¬ (createContexts TickContext.new TickContext.addTickable
       (Some Examples.badVoices) = Throw (RERR TickMismatch)
     ↔ Exists (λ voice,
                 mismatched (Voice.getTotalTicks Examples.strictIncomplete) voice
                 = true)
              Examples.badVoices).
Proof.
  intros [_ H].
  assert (He : createContexts TickContext.new TickContext.addTickable
                 (Some Examples.badVoices) = Throw (RERR TickMismatch)).
  { apply H. right. left. reflexivity. }
  vm_compute in He. discriminate.
Qed.

(** C4, as amended.  [createContexts] raises [BadArgument] exactly when
    the voices are empty or missing.  Otherwise it validates the voices
    in order and raises at the first voice that fails: [TickMismatch]
    when that voice's total ticks differ from the first voice's,
    [IncompleteVoice] when they agree and the voice is strict and not
    complete.  It returns contexts exactly when every voice passes.  A
    failure is decided by the validation alone, whatever the context
    kind: no context is produced. *)
Theorem createContexts_raises_for_first_offending_voice {C : Type}
    (ContextType : C) (addToContext : TickableRef * Tickable.t → C → C) :
  (∀ voices : option (list Voice.t),
     createContexts ContextType addToContext voices = Throw (RERR BadArgument)
     ↔ voices = None ∨ voices = Some [])
  ∧ (∀ (voice0 : Voice.t) (rest : list Voice.t),
       let voices := voice0 :: rest in
       let totalTicks := Voice.getTotalTicks voice0 in
       let result := createContexts ContextType addToContext (Some voices) in
       (result = Throw (RERR TickMismatch)
        ↔ ∃ pre voice post, voices = pre ++ voice :: post
            ∧ Forall (valid totalTicks) pre
            ∧ mismatched totalTicks voice = true)
       ∧ (result = Throw (RERR IncompleteVoice)
          ↔ ∃ pre voice post, voices = pre ++ voice :: post
              ∧ Forall (valid totalTicks) pre
              ∧ mismatched totalTicks voice = false
              ∧ incomplete voice = true)
       ∧ ((∃ cs, result = Ok cs) ↔ Forall (valid totalTicks) voices)
       ∧ (∀ e, result = Throw e →
            e ≠ TypeError
            ∧ ∀ (C' : Type) (ContextType' : C')
                (addToContext' : TickableRef * Tickable.t → C' → C'),
                createContexts ContextType' addToContext' (Some voices)
                = Throw e)).
Proof.
  split.
  - intros [[|voice0 rest]|].
    + split; [by right|done].
    + rewrite createContexts_Throw, reduce_Throw. split; [|by intros [|]].
      intros (pre & v & post & _ & _ & [[_ ?]|(_ & _ & ?)]); done.
    + split; [by left|done].
  - intros voice0 rest. cbv zeta. repeat split.
    + rewrite createContexts_Throw, reduce_Throw.
      intros (pre & v & post & ? & ? & [[? _]|(_ & _ & ?)]); [eauto 10|done].
    + rewrite createContexts_Throw, reduce_Throw.
      intros (pre & v & post & ? & ? & ?). eauto 10.
    + rewrite createContexts_Throw, reduce_Throw.
      intros (pre & v & post & ? & ? & [[_ ?]|(? & ? & _)]); [done|eauto 10].
    + rewrite createContexts_Throw, reduce_Throw.
      intros (pre & v & post & ? & ? & ? & ?). eauto 15.
    + intros [cs H]. apply createContexts_Ok in H
        as (v0 & r & [= <- <-] & Hr & _).
      apply (proj1 (reduce_Ok _ _ 1)). eauto.
    + intros Hv. rewrite createContexts_Some.
      destruct (reduce_valid _ _ 1 Hv) as (r & -> & _). simpl. eauto.
    + apply createContexts_Throw, reduce_Throw in H
        as (pre & v & post & _ & _ & [[_ ->]|(_ & _ & ->)]); done.
    + intros C' new' add'. apply createContexts_Throw.
      by apply createContexts_Throw in H.
Qed.

(** C5.  For voices that pass validation, each with a resolution
    multiplier of at least 1, the resolution multiplier [createContexts]
    returns is the least common multiple, seeded at 1, of the voices'
    multipliers, and is at least 1. *)
Theorem resolutionMultiplier_is_lcm_of_multipliers {C : Type}
    (ContextType : C) (addToContext : TickableRef * Tickable.t → C → C)
    (voices : list Voice.t) (result : Contexts.t C) :
  createContexts ContextType addToContext (Some voices) = Ok result →
  Forall (λ voice, 1 ≤ Voice.getResolutionMultiplier voice) voices →
  Contexts.resolutionMultiplier result = lcmOfMultipliers voices
  ∧ 1 ≤ Contexts.resolutionMultiplier result.
Proof.
  intros H Hpos. apply createContexts_Ok in H as (v0 & r & [= ->] & Hr & _).
  split.
  - by eapply reduce_lcm.
  - by eapply reduce_ge.
Qed.

Lemma resolutionMultiplier_is_lcm_of_multipliers_witness :
  ∃ result,
    createContexts TickContext.new TickContext.addTickable
      (Some [Examples.halves; Examples.thirds]) = Ok result
    ∧ Contexts.resolutionMultiplier result = 6.
Proof.
  eexists. split; [reflexivity|].
  refine (proj1 (resolutionMultiplier_is_lcm_of_multipliers
            TickContext.new TickContext.addTickable
            [Examples.halves; Examples.thirds] _ eq_refl _)).
  repeat constructor; vm_compute; discriminate.
Defined.

(** ** Loops that stop at the first exception *)

Lemma forEachIndex_app {St} (f : St → nat → Result St) (l1 l2 : list nat)
    (s : St) :
  forEachIndex f (l1 ++ l2) s
  = match forEachIndex f l1 s with
    | (s', None) => forEachIndex f l2 s'
    | (s', Some e) => (s', Some e)
    end.
Proof.
  revert s. induction l1 as [|i l1 IH]; intros s; simpl; [done|].
  by destruct (f s i).
Qed.

Lemma forEach_Ok {A} (f : A → Result A) (xs ys : list A) :
  forEach f xs = Ok ys → Forall2 (λ x y, f x = Ok y) xs ys.
Proof.
  revert ys. induction xs as [|x xs IH]; intros ys; simpl.
  - intros [= <-]. constructor.
  - intros H. apply bind_Ok in H as (y & Hy & H).
    apply bind_Ok in H as (ys' & Hys & [= <-]). constructor; auto.
Qed.

Lemma forEach_Throw {A} (f : A → Result A) (xs : list A) (i : nat) (x : A)
    (e : Exception) :
  xs !! i = Some x → f x = Throw e →
  (∀ y e', y ∈ xs → f y = Throw e' → e' = e) →
  forEach f xs = Throw e.
Proof.
  revert i. induction xs as [|y xs IH]; intros i Hx Hf Hall; [done|].
  simpl. destruct (f y) as [y'|e'] eqn:Ey.
  - destruct i as [|i]; [simpl in Hx; congruence|].
    cbn [mbind Result_bind].
    rewrite (IH i Hx Hf); [done|]. intros z e' Hz. apply Hall. by right.
  - cbn [mbind Result_bind]. f_equal. eapply Hall; [|done]. by left.
Qed.

Section RestAlignmentFacts.
Variable MidLine : Q -> Q -> Q.
Variables (alignAllNotes : bool) (alignTuplets : option bool).

Local Abbreviation step :=
  (Formatter.alignNote MidLine alignAllNotes alignTuplets).

Lemma setKeyLine_line (n : Tickable.t) :
  Tickable.setKeyLine (Tickable.line n) n = n.
Proof. by destruct n. Qed.

(** An iteration leaves the notes alone, writes a line to its note, or
    raises [TypeError]. *)
Lemma alignNote_cases (notes : list Tickable.t) index :
  step notes index = Ok notes
  ∨ (∃ note l, notes !! index = Some note
       ∧ step notes index = Ok (<[index := Tickable.setKeyLine l note]> notes))
  ∨ step notes index = Throw TypeError.
Proof.
  unfold Formatter.alignNote.
  destruct (notes !! index) as [note|] eqn:E; [|by left].
  repeat match goal with
         | |- context [if ?b then _ else _] => destruct b
         | |- context [match ?i with O => _ | S _ => _ end] => destruct i
         | |- context [match ?o with Some _ => _ | None => _ end] => destruct o
         end; eauto 6.
Qed.

Lemma alignNote_length (notes notes' : list Tickable.t) index :
  step notes index = Ok notes' → length notes' = length notes.
Proof.
  destruct (alignNote_cases notes index) as [->|[(n & l & _ & ->)| ->]];
    intros [= <-]; [done|]. by rewrite length_insert.
Qed.

Lemma alignNote_other (notes notes' : list Tickable.t) index j :
  step notes index = Ok notes' → j ≠ index → notes' !! j = notes !! j.
Proof.
  destruct (alignNote_cases notes index) as [->|[(n & l & _ & ->)| ->]];
    intros [= <-] Hne; [done|]. by rewrite list_lookup_insert_ne.
Qed.

Lemma alignNote_at (notes notes' : list Tickable.t) index note :
  step notes index = Ok notes' → notes !! index = Some note →
  ∃ l, notes' !! index = Some (Tickable.setKeyLine l note).
Proof.
  destruct (alignNote_cases notes index) as [->|[(n & l & Hn' & ->)| ->]];
    intros [= <-] Hn.
  - exists (Tickable.line note). by rewrite setKeyLine_line.
  - exists l. rewrite list_lookup_insert_eq; [congruence|].
    by eapply lookup_lt_Some.
Qed.

(** The only exception of the loop is [TypeError]. *)
Lemma forEachIndex_alignNote_exception (notes : list Tickable.t) indices e :
  (forEachIndex step indices notes).2 = Some e → e = TypeError.
Proof.
  revert notes. induction indices as [|i indices IH]; intros notes; [done|].
  simpl.
  destruct (alignNote_cases notes i) as [->|[(n & l & _ & ->)| ->]];
    [apply IH|apply IH|]. by intros [= <-].
Qed.

Lemma forEachIndex_alignNote_length (notes : list Tickable.t) a n :
  length (forEachIndex step (seq a n) notes).1 = length notes.
Proof.
  revert notes a. induction n as [|n IH]; intros notes a; [done|].
  simpl. destruct (step notes a) as [notes'|] eqn:E; [|done].
  by rewrite IH, (alignNote_length _ _ _ E).
Qed.

(** The iterations [a .. a+n-1] leave every other index alone. *)
Lemma forEachIndex_alignNote_other (notes : list Tickable.t) a n j :
  (j < a ∨ a + n ≤ j)%nat →
  (forEachIndex step (seq a n) notes).1 !! j = notes !! j.
Proof.
  revert notes a. induction n as [|n IH]; intros notes a Hj; [done|].
  simpl. destruct (step notes a) as [notes'|] eqn:E; [|done].
  rewrite IH by lia. apply (alignNote_other _ _ _ _ E). lia.
Qed.

(** The loop changes at most the line of a note. *)
Lemma forEachIndex_alignNote_at (notes : list Tickable.t) a n j note :
  notes !! j = Some note →
  ∃ l, (forEachIndex step (seq a n) notes).1 !! j
       = Some (Tickable.setKeyLine l note).
Proof.
  revert notes a note. induction n as [|n IH]; intros notes a note Hn.
  - exists (Tickable.line note). by rewrite setKeyLine_line.
  - simpl. destruct (step notes a) as [notes'|] eqn:E.
    + destruct (decide (j = a)) as [->|Hne].
      * destruct (alignNote_at _ _ _ _ E Hn) as [l Hl].
        destruct (IH _ (S a) _ Hl) as [l' Hl']. exists l'.
        by rewrite Hl'.
      * apply IH. by rewrite (alignNote_other _ _ _ _ E).
    + exists (Tickable.line note). by rewrite setKeyLine_line.
Qed.

(** A note that its own iteration leaves alone is left alone by the
    loop. *)
Lemma forEachIndex_alignNote_keeps (notes : list Tickable.t) a n j note :
  notes !! j = Some note →
  (∀ N N', N !! j = Some note → step N j = Ok N' → N' !! j = Some note) →
  (forEachIndex step (seq a n) notes).1 !! j = Some note.
Proof.
  intros Hn Hkeep. revert notes a Hn.
  induction n as [|n IH]; intros notes a Hn; [done|].
  simpl. destruct (step notes a) as [notes'|] eqn:E; [|done].
  apply IH. destruct (decide (j = a)) as [->|Hne].
  - by eapply Hkeep.
  - by rewrite (alignNote_other _ _ _ _ E).
Qed.

(** The iteration at an eligible rest that follows a rest. *)
Lemma alignNote_inherit (notes : list Tickable.t) index note previous :
  notes !! S index = Some note →
  notes !! index = Some previous →
  eligible alignAllNotes alignTuplets note = true →
  Tickable.rest previous = true →
  step notes (S index)
  = if Tickable.isStaveNote previous then
      Ok (<[S index := Tickable.setKeyLine (Tickable.line previous) note]>
            notes)
    else Throw TypeError.
Proof.
  intros Hn Hp He Hr. unfold eligible in He.
  apply andb_prop in He as [He Hb]. apply andb_prop in He as [He Hpos].
  apply andb_prop in He as [He Ht].
  unfold Formatter.alignNote. rewrite Hn, He.
  apply negb_true_iff in Ht. rewrite Ht.
  apply orb_prop in Hpos.
  replace (_ && _) with false; cycle 1.
  { destruct Hpos as [->| ->]; simpl; [done|]. by rewrite andb_false_r. }
  rewrite Hb, Hp, Hr. done.
Qed.

(** The loop, split at iteration [k]. *)
Lemma AlignRestsToNotes_split (notes : list Tickable.t) k :
  (k < length notes)%nat →
  Formatter.AlignRestsToNotes MidLine notes alignAllNotes alignTuplets
  = match forEachIndex step (seq 0 k) notes with
    | (before, None) =>
        match step before k with
        | Ok notes' =>
            forEachIndex step (seq (S k) (length notes - S k)) notes'
        | Throw e => (before, Some e)
        end
    | (before, Some e) => (before, Some e)
    end.
Proof.
  intros Hk. unfold Formatter.AlignRestsToNotes.
  replace (length notes) with (k + S (length notes - S k))%nat at 1 by lia.
  rewrite seq_app, forEachIndex_app.
  by destruct (forEachIndex step (seq 0 k) notes) as [before [e|]].
Qed.

(** The claim holds when the preceding rest is a stave note: the rest
    takes the line the preceding rest holds after its own iteration,
    which is the line it holds in the end, whatever follows. *)
Lemma rest_after_stave_note_rest_inherits_line
    (notes before : list Tickable.t) (index : nat)
    (note previous : Tickable.t) :
  notes !! S index = Some note →
  notes !! index = Some previous →
  eligible alignAllNotes alignTuplets note = true →
  Tickable.rest previous = true →
  Tickable.isStaveNote previous = true →
  forEachIndex step (seq 0 (S index)) notes = (before, None) →
  ∃ resolved aligned : Tickable.t,
    before !! index = Some resolved
    ∧ (Formatter.AlignRestsToNotes MidLine notes alignAllNotes
         alignTuplets).1 !! index = Some resolved
    ∧ (Formatter.AlignRestsToNotes MidLine notes alignAllNotes
         alignTuplets).1 !! S index = Some aligned
    ∧ Tickable.line aligned = Tickable.line resolved
    ∧ aligned = Tickable.setKeyLine (Tickable.line resolved) note.
Proof.
  intros Hn Hp He Hr Hs Hbefore.
  assert (Hlen : (S index < length notes)%nat) by by eapply lookup_lt_Some.
  destruct (forEachIndex_alignNote_at notes 0 (S index) index previous Hp)
    as [l Hres].
  pose proof (forEachIndex_alignNote_other notes 0 (S index) (S index)
                ltac:(lia)) as Hnote.
  rewrite Hbefore in Hres, Hnote. simpl in Hres, Hnote. rewrite Hn in Hnote.
  exists (Tickable.setKeyLine l previous),
         (Tickable.setKeyLine l note).
  rewrite (AlignRestsToNotes_split notes (S index) Hlen), Hbefore.
  rewrite (alignNote_inherit before index note _ Hnote Hres He) by done.
  simpl Tickable.isStaveNote. rewrite Hs.
  rewrite !forEachIndex_alignNote_other by lia.
  split; [done|]. split; [by rewrite list_lookup_insert_ne by lia|].
  split; [|done].
  rewrite list_lookup_insert_eq; [done|]. by eapply lookup_lt_Some.
Qed.

(** After a rest that is no stave note, the loop raises [TypeError] at
    the latest when it comes to the eligible rest, whose line is never
    written. *)
Lemma AlignRestsToNotes_TypeError
    (notes : list Tickable.t) (index : nat) (note previous : Tickable.t) :
  notes !! S index = Some note →
  notes !! index = Some previous →
  eligible alignAllNotes alignTuplets note = true →
  Tickable.rest previous = true →
  Tickable.isStaveNote previous = false →
  (Formatter.AlignRestsToNotes MidLine notes alignAllNotes alignTuplets).2
  = Some TypeError
  ∧ (Formatter.AlignRestsToNotes MidLine notes alignAllNotes
       alignTuplets).1 !! S index = Some note.
Proof.
  intros Hn Hp He Hr Hs.
  assert (Hlen : (S index < length notes)%nat) by by eapply lookup_lt_Some.
  destruct (forEachIndex_alignNote_at notes 0 (S index) index previous Hp)
    as [l Hres].
  pose proof (forEachIndex_alignNote_other notes 0 (S index) (S index)
                ltac:(lia)) as Hnote.
  pose proof (forEachIndex_alignNote_exception notes (seq 0 (S index)))
    as Hexc.
  rewrite (AlignRestsToNotes_split notes (S index) Hlen).
  destruct (forEachIndex step (seq 0 (S index)) notes) as [before [e|]].
  - simpl in *. rewrite (Hexc e eq_refl). by rewrite Hnote.
  - simpl in Hres, Hnote. rewrite Hn in Hnote.
    rewrite (alignNote_inherit before index note _ Hnote Hres He) by done.
    simpl Tickable.isStaveNote. rewrite Hs. done.
Qed.

End RestAlignmentFacts.

(** C9, where the code departs from it.  The code reads
    [notes[index - 1].getKeyProps()[0].line] of any preceding rest,
    without the [instanceof StaveNote] test it makes for the rest
    itself.  For an eligible rest that follows a rest which is no stave
    note (a ghost note), [AlignRestsToNotes] raises [TypeError], the
    line of the rest is never written, and [alignRests] and [format]
    with [align_rests] raise as well. *)
Theorem rest_after_rest_that_is_no_stave_note_raises (MidLine : Q -> Q -> Q)
    (alignAllNotes : bool) (alignTuplets : option bool)
    (notes : list Tickable.t) (index : nat) (note previous : Tickable.t) :
  notes !! S index = Some note →
  notes !! index = Some previous →
  eligible alignAllNotes alignTuplets note = true →
  Tickable.rest previous = true →
  Tickable.isStaveNote previous = false →
  (* the static method raises, and the rest keeps its line *)
  (Formatter.AlignRestsToNotes MidLine notes alignAllNotes alignTuplets).2
  = Some TypeError
  ∧ (∃ kept, (Formatter.AlignRestsToNotes MidLine notes alignAllNotes
                alignTuplets).1 !! S index = Some kept
             ∧ Tickable.line kept = Tickable.line note)
  (* and so do [alignRests] and [format] on a voice of these notes *)
  ∧ (alignTuplets = None →
     ∀ voices vi voice,
       voices !! vi = Some voice → Voice.getTickables voice = notes →
       Formatter.alignRests MidLine (Some voices) alignAllNotes
       = Throw TypeError
       ∧ ∀ this justifyWidth context stave,
           Formatter.format MidLine this (Some voices) justifyWidth
             (Some (Formatter.mkOptions alignAllNotes context stave))
           = Throw TypeError).
Proof.
  intros Hn Hp He Hr Hs.
  destruct (AlignRestsToNotes_TypeError MidLine alignAllNotes alignTuplets
              notes index note previous Hn Hp He Hr Hs) as [H2 H1].
  split; [done|]. split; [by exists note|].
  intros -> voices vi voice Hv Hnotes.
  assert (Ha : Formatter.alignRests MidLine (Some voices) alignAllNotes
               = Throw TypeError).
  { unfold Formatter.alignRests.
    destruct voices as [|v0 vs] eqn:Ev; [done|]. rewrite <- Ev in *.
    eapply (forEach_Throw _ voices vi voice); [done| |].
    - rewrite Hnotes.
      destruct (Formatter.AlignRestsToNotes _ _ _ _) as [N [e|]];
        simpl in H2; by simplify_eq.
    - intros y e' _.
      pose proof (forEachIndex_alignNote_exception MidLine alignAllNotes None
                    (Voice.getTickables y)
                    (seq 0 (length (Voice.getTickables y)))) as Hexc.
      unfold Formatter.AlignRestsToNotes.
      destruct (forEachIndex _ _ _) as [N [e|]]; [|done].
      intros [= <-]. by apply Hexc. }
  split; [done|]. intros this jw context stave.
  unfold Formatter.format. simpl default. simpl Formatter.align_rests.
  by rewrite Ha.
Qed.

Lemma rest_after_rest_that_is_no_stave_note_raises_witness :
  Formatter.AlignRestsToNotes Examples.exactMidLine Examples.ghostThenRest
    true None
  = (Examples.ghostThenRest, Some TypeError)
  ∧ Formatter.format Examples.exactMidLine Formatter.constructor
      (Some [Examples.fourFour Examples.ghostThenRest]) None
      (Some (Formatter.mkOptions true None None))
    = Throw TypeError.
Proof.
  destruct (rest_after_rest_that_is_no_stave_note_raises Examples.exactMidLine
              true None Examples.ghostThenRest 0 (Examples.quarterRest None)
              Examples.ghostNote eq_refl eq_refl eq_refl eq_refl eq_refl)
    as (_ & _ & H).
  destruct (H eq_refl [Examples.fourFour Examples.ghostThenRest] 0%nat
              (Examples.fourFour Examples.ghostThenRest) eq_refl eq_refl)
    as [_ Hf].
  split; [vm_compute; reflexivity|]. apply Hf.
Defined.

Section TupletFacts.
Variable MidLine : Q -> Q -> Q.
Variable alignAllNotes : bool.

(** Without the third argument, the iteration at a note in a tuplet
    changes nothing. *)
Lemma alignNote_tuplet (notes : list Tickable.t) index note :
  notes !! index = Some note →
  is_Some (Tickable.tuplet note) →
  Formatter.alignNote MidLine alignAllNotes None notes index = Ok notes.
Proof.
  intros Hn Ht. unfold Formatter.alignNote. rewrite Hn.
  rewrite (bool_decide_eq_true_2 _ Ht). simpl.
  by destruct (_ && _).
Qed.

Lemma AlignRestsToNotes_tuplet (notes : list Tickable.t) index note :
  notes !! index = Some note →
  is_Some (Tickable.tuplet note) →
  (Formatter.AlignRestsToNotes MidLine notes alignAllNotes None).1 !! index
  = Some note.
Proof.
  intros Hn Ht. apply forEachIndex_alignNote_keeps; [done|].
  intros N N' HN. rewrite (alignNote_tuplet N index note HN Ht).
  by intros [= <-].
Qed.

(** With the third argument set, the first rest takes the line the
    look-ahead finds. *)
Lemma AlignRestsToNotes_first (notes : list Tickable.t) alignTuplets note :
  notes !! 0%nat = Some note →
  eligible alignAllNotes alignTuplets note = true →
  (Formatter.AlignRestsToNotes MidLine notes alignAllNotes alignTuplets).1
    !! 0%nat
  = Some (Tickable.setKeyLine
            (lookAhead MidLine notes (Tickable.line note) 0 false) note).
Proof.
  intros Hn He.
  rewrite (AlignRestsToNotes_split _ _ _ notes 0)
    by by eapply lookup_lt_Some.
  simpl forEachIndex at 1.
  unfold eligible in He.
  apply andb_prop in He as [He Hb]. apply andb_prop in He as [He Hpos].
  apply andb_prop in He as [He Ht].
  unfold Formatter.alignNote at 1. rewrite Hn, He.
  apply negb_true_iff in Ht. rewrite Ht.
  apply orb_prop in Hpos.
  replace (negb _ && negb _) with false; cycle 1.
  { destruct Hpos as [->| ->]; simpl; [done|]. by rewrite andb_false_r. }
  rewrite Hb. rewrite forEachIndex_alignNote_other by lia.
  rewrite list_lookup_insert_eq; [done|].
  by eapply lookup_lt_Some.
Qed.
End TupletFacts.

(** Sharing the center shift with the voices leaves every line alone. *)
Lemma shareTickable_lineAt (voices : list Voice.t)
    (member : TickableRef * Tickable.t) vi ti :
  lineAt (Formatter.shareTickable voices member) vi ti = lineAt voices vi ti.
Proof.
  unfold lineAt, Formatter.shareTickable.
  rewrite list_lookup_alter. case_decide as Hvi; [subst vi|done].
  destruct (voices !! _) as [voice|]; [|done]. simpl.
  rewrite list_lookup_alter. case_decide as Hti; [subst ti|done].
  unfold Voice.getTickables. by destruct (Voice.tickables voice !! member.1.2).
Qed.

Lemma shareTickables_lineAt (cs : Contexts.t TickContext.t)
    (voices : list Voice.t) vi ti :
  lineAt (Formatter.shareTickables cs voices) vi ti = lineAt voices vi ti.
Proof.
  unfold Formatter.shareTickables.
  generalize (Contexts.array cs). intros array. revert voices.
  induction array as [|c array IH]; intros voices; [done|].
  simpl. rewrite IH. generalize (TickContext.tickables c). intros members.
  revert voices. induction members as [|m members IHm]; intros voices; [done|].
  simpl. by rewrite IHm, shareTickable_lineAt.
Qed.

Lemma preFormat_voices_lineAt (this this' : Formatter.t) jw rc
    (voices : list Voice.t) stave voices' vi ti :
  Formatter.preFormat this jw rc (Some voices) stave = Ok (this', voices') →
  lineAt (default voices voices') vi ti = lineAt voices vi ti.
Proof.
  unfold Formatter.preFormat. destruct (Formatter.tickContexts this); [|done].
  intros H. apply bind_Ok in H as (p & _ & H).
  assert (Hv : voices'
    = match stave with
      | Some stave =>
          Some ((λ voice, Voice.preFormat (Voice.setStave stave voice)) <$> voices)
      | None => Some voices
      end).
  { destruct (gtb _ _).
    - apply bind_Ok in H as ([? ?] & _ & H). by injection H.
    - by injection H. }
  subst voices'. destruct stave as [stave|]; [|done].
  simpl. unfold lineAt. rewrite list_lookup_fmap.
  by destruct (voices !! vi).
Qed.

(** C10.  [alignRests] calls [AlignRestsToNotes] without the third
    argument, so a rest in a tuplet is left as it is, and [format]
    leaves its line as it is, whatever the options; the static method
    called with [alignTuplets] set aligns such a rest. *)
Theorem alignRests_leaves_tuplet_rests_alone (MidLine : Q → Q → Q)
    (voices : list Voice.t) (alignAllNotes : bool)
    (vi ti : nat) (voice : Voice.t) (note : Tickable.t) :
  voices !! vi = Some voice →
  Voice.getTickables voice !! ti = Some note →
  Tickable.rest note = true →
  is_Some (Tickable.tuplet note) →
  (* the static method, called as [alignRests] calls it *)
  (Formatter.AlignRestsToNotes MidLine (Voice.getTickables voice)
     alignAllNotes None).1 !! ti = Some note
  (* the instance method *)
  ∧ (∀ voices',
       Formatter.alignRests MidLine (Some voices) alignAllNotes = Ok voices' →
       ∃ voice', voices' !! vi = Some voice'
                 ∧ Voice.getTickables voice' !! ti = Some note)
  (* the format entry point, whatever its options *)
  ∧ (∀ this justifyWidth options this' voices',
       Formatter.format MidLine this (Some voices) justifyWidth options
       = Ok (this', voices') →
       lineAt voices' vi ti = Some (Tickable.line note))
  (* the static method with [alignTuplets] set does align the rest *)
  ∧ (ti = 0%nat →
     eligible alignAllNotes (Some true) note = true →
     (Formatter.AlignRestsToNotes MidLine (Voice.getTickables voice)
        alignAllNotes (Some true)).1 !! 0%nat
     = Some (Tickable.setKeyLine
               (lookAhead MidLine (Voice.getTickables voice)
                          (Tickable.line note) 0 false) note)).
Proof.
  intros Hv Hn Hr Ht.
  assert (Hstatic : ∀ a,
    (Formatter.AlignRestsToNotes MidLine (Voice.getTickables voice) a None).1
      !! ti = Some note).
  { intros a. by apply AlignRestsToNotes_tuplet. }
  assert (Hinst : ∀ a voices',
    Formatter.alignRests MidLine (Some voices) a = Ok voices' →
    ∃ voice', voices' !! vi = Some voice'
              ∧ Voice.getTickables voice' !! ti = Some note).
  { intros a voices' Hok.
    assert (Hall : Forall2 (λ v v',
              match Formatter.AlignRestsToNotes MidLine (Voice.getTickables v)
                      a None with
              | (notes, None) => Ok (Voice.setTickables notes v)
              | (_, Some e) => Throw e
              end = Ok v') voices voices').
    { clear Hv. destruct voices; [done|]. by apply forEach_Ok. }
    destruct (Forall2_lookup_l _ _ _ _ _ Hall Hv) as (voice' & Hv' & Hstep).
    exists voice'. split; [done|].
    specialize (Hstatic a).
    destruct (Formatter.AlignRestsToNotes _ _ _ _) as [notes [e|]]; [done|].
    injection Hstep as <-. exact Hstatic. }
  split; [apply Hstatic|]. split; [apply Hinst|]. split.
  - intros this jw options this' voices'. unfold Formatter.format.
    intros H. apply bind_Ok in H as (vs1 & Ha & H).
    apply bind_Ok in H as ([cs this1] & _ & H).
    apply bind_Ok in H as ([this2 vs2] & Hp & H).
    destruct (Hinst _ _ Ha) as (voice' & Hv' & Hn').
    assert (Hl : lineAt voices' vi ti = lineAt vs1 vi ti).
    { assert (voices' = match Formatter.tickContexts this2 with
                        | Some cs => Formatter.shareTickables cs (default vs1 vs2)
                        | None => default vs1 vs2
                        end) as ->.
      { destruct (Formatter.stave _).
        - apply bind_Ok in H as (? & _ & H). by injection H.
        - by injection H. }
      destruct (Formatter.tickContexts this2).
      - rewrite shareTickables_lineAt. by eapply preFormat_voices_lineAt.
      - by eapply preFormat_voices_lineAt. }
    rewrite Hl. unfold lineAt. rewrite Hv'. simpl. by rewrite Hn'.
  - intros -> He. by apply AlignRestsToNotes_first.
Qed.

Lemma alignRests_leaves_tuplet_rests_alone_witness :
  (Formatter.AlignRestsToNotes Examples.exactMidLine Examples.tupletRestNote
     true None).1 !! 0%nat = Some (Examples.quarterRest (Some 1%nat))
  ∧ (Formatter.AlignRestsToNotes Examples.exactMidLine Examples.tupletRestNote
       true (Some true)).1 !! 0%nat
    = Some (Tickable.setKeyLine 5%Q (Examples.quarterRest (Some 1%nat))).
Proof.
  pose proof (alignRests_leaves_tuplet_rests_alone Examples.exactMidLine
                [Examples.fourFour Examples.tupletRestNote] true 0 0
                (Examples.fourFour Examples.tupletRestNote)
                (Examples.quarterRest (Some 1%nat))
                eq_refl eq_refl eq_refl (ex_intro _ 1%nat eq_refl))
    as (H1 & _ & _ & H4).
  split; [exact H1|]. exact (H4 eq_refl eq_refl).
Defined.

(** ** [Vex.SortAndUnique] on tick lists *)

Local Instance cmp_total : Total (λ a b : Z, a - b ≤ 0).
Proof. intros a b. lia. Qed.

Local Instance cmp_trans : Transitive (λ a b : Z, a - b ≤ 0).
Proof. intros a b c. lia. Qed.

Lemma unique_sorted (a : Z) (l : list Z) :
  StronglySorted (λ a b, a - b ≤ 0) (a :: l) →
  StronglySorted Z.lt (a :: Vex.unique Z.eqb (Some a) l)
  ∧ ∀ x, x ∈ a :: Vex.unique Z.eqb (Some a) l ↔ x ∈ a :: l.
Proof.
  revert a. induction l as [|b l IH]; intros a Hs.
  - split; [repeat constructor|done].
  - apply StronglySorted_inv in Hs as [Hs Ha].
    pose proof Hs as Hs'. apply StronglySorted_inv in Hs' as [Hl Hb].
    apply Forall_cons in Ha as [Hab Ha]. simpl.
    destruct (Z.eqb_spec b a) as [->|Hne].
    + destruct (IH a Hs) as [IH1 IH2]. split; [done|].
      intros x. rewrite IH2, !elem_of_cons. tauto.
    + destruct (IH b Hs) as [IH1 IH2]. split.
      * constructor; [done|]. apply Forall_forall. intros x Hx.
        apply IH2 in Hx. apply elem_of_cons in Hx as [->|Hx]; [lia|].
        rewrite Forall_forall in Hb. specialize (Hb x Hx). simpl in Hb. lia.
      * intros x. rewrite !(elem_of_cons _ x a), IH2. done.
Qed.

Lemma SortAndUnique_spec (l : list Z) :
  StronglySorted Z.lt (Vex.SortAndUnique l (λ a b, a - b) Z.eqb)
  ∧ ∀ x, x ∈ Vex.SortAndUnique l (λ a b, a - b) Z.eqb ↔ x ∈ l.
Proof.
  unfold Vex.SortAndUnique.
  pose proof (@StronglySorted_merge_sort Z (λ a b : Z, a - b ≤ 0)
                (λ a b, decide (a - b ≤ 0)) _ _ l) as Hs.
  pose proof (@merge_sort_Permutation Z (λ a b : Z, a - b ≤ 0)
                (λ a b, decide (a - b ≤ 0)) l) as Hp.
  destruct (merge_sort _ l) as [|a s].
  - split; [constructor|]. intros x. by rewrite <- Hp.
  - simpl. destruct (unique_sorted a s Hs) as [H1 H2]. split; [done|].
    intros x. by rewrite H2, Hp.
Qed.

Lemma StronglySorted_lt_NoDup (l : list Z) : StronglySorted Z.lt l → NoDup l.
Proof.
  induction 1 as [|a l _ IH Ha]; constructor; [|done].
  intros Hin. rewrite Forall_forall in Ha. specialize (Ha a Hin). lia.
Qed.

(** ** The invariant of the grid loop *)

Lemma filter_ext_in {A} (P1 P2 : A → Prop)
    `{!∀ x, Decision (P1 x), !∀ x, Decision (P2 x)} (l : list A) :
  (∀ x, x ∈ l → P1 x ↔ P2 x) → filter P1 l = filter P2 l.
Proof.
  induction l as [|a l IH]; intros HP; [done|].
  rewrite !filter_cons, IH by (intros; apply HP; by right).
  destruct (decide (P1 a)) as [H1|H1], (decide (P2 a)) as [H2|H2]; try done.
  - destruct H2. apply HP; [by left|done].
  - destruct H1. apply HP; [by left|done].
Qed.

Lemma filter_none {A} (P : A → Prop) `{!∀ x, Decision (P x)} (l : list A) :
  (∀ x, x ∈ l → ¬ P x) → filter P l = [].
Proof.
  induction l as [|a l IH]; intros HP; [done|].
  rewrite filter_cons_False by (apply HP; by left).
  apply IH. intros; apply HP; by right.
Qed.

Section GridInvariant.
Context {C : Type} (new : C) (add : TickableRef * Tickable.t → C → C).
Context (members : C → list (TickableRef * Tickable.t)).
Hypothesis members_new : members new = [].
Hypothesis members_add : ∀ m c, members (add m c) = members c ++ [m].

Local Abbreviation Inv := (Inv members).

Lemma Inv_init : Inv (mkGrid ∅ [] []) [].
Proof.
  split; simpl; try done.
  intros tick. rewrite lookup_empty. split; [by intros [? ?]|].
  by intros ?%elem_of_nil.
Qed.

Lemma visit_Inv g log ref tickable ticksUsed :
  Inv g log →
  Inv (visit new add ref tickable ticksUsed g)
      (log ++ [(ref, tickable, Fraction.numerator ticksUsed)]).
Proof.
  intros [Hl Hd Hr Hi Hs Hm]. unfold visit.
  set (tick := Fraction.numerator ticksUsed).
  assert (Hsnd : (log ++ [(ref, tickable, tick)]).*2 = log.*2 ++ [tick])
    by by rewrite fmap_app.
  destruct (tickToContextMap g !! tick) as [i|] eqn:E.
  - (* the tick has its context already *)
    rewrite E. split; simpl.
    + by rewrite Hsnd, Hl.
    + intros t. rewrite Hd, Hsnd, elem_of_app, list_elem_of_singleton.
      split; [tauto|]. intros [?| ->]; [done|]. apply Hd. eauto.
    + intros t j Ht. rewrite length_alter. eauto.
    + done.
    + by rewrite length_alter.
    + intros j c. rewrite filter_app, fmap_app, list_lookup_alter.
      rewrite filter_cons, filter_nil. simpl. fold tick. rewrite E.
      destruct (decide (i = j)) as [<-|Hij].
      * rewrite decide_True by done. simpl.
        destruct (contexts g !! i) as [c0|] eqn:Ec; [|done].
        intros [= <-]. by rewrite members_add, (Hm i c0 Ec).
      * rewrite decide_False by congruence. simpl.
        rewrite app_nil_r. apply Hm.
  - (* a new context is created for the tick *)
    simpl. rewrite lookup_insert_eq.
    assert (Hfresh : ∀ e, e ∈ log → e.2 ≠ tick).
    { intros e He Heq.
      assert (is_Some (tickToContextMap g !! tick)) as [? ?]; [|congruence].
      apply Hd. apply list_elem_of_fmap. eauto. }
    split; simpl.
    + by rewrite Hsnd, Hl.
    + intros t. rewrite Hsnd, elem_of_app, list_elem_of_singleton.
      rewrite lookup_insert_is_Some, Hd.
      split; [intros [->|[_ ?]]|intros [?| ->]]; eauto.
      destruct (decide (tick = t)); eauto.
    + intros t j. rewrite length_alter, length_app. simpl.
      rewrite lookup_insert_Some. intros [[_ <-]|[_ Ht]]; [lia|].
      apply Hr in Ht. lia.
    + intros t1 t2 j. rewrite !lookup_insert_Some.
      intros [[<- <-]|[? H1]] [[<- ?]|[? H2]]; try done.
      * apply Hr in H2. lia.
      * apply Hr in H1. lia.
      * eauto.
    + rewrite length_alter, length_app, map_size_insert_None by done.
      simpl. lia.
    + intros j c. rewrite filter_app, fmap_app, filter_cons, filter_nil.
      simpl. fold tick. rewrite lookup_insert_eq.
      rewrite (filter_ext_in _ (λ e, tickToContextMap g !! e.2 = Some j) log);
        cycle 1.
      { intros e He. rewrite lookup_insert_ne; [done|].
        intros ?. by eapply Hfresh. }
      rewrite list_lookup_alter.
      destruct (decide (length (contexts g) = j)) as [<-|Hne].
      * rewrite decide_True by done.
        rewrite lookup_app_r, Nat.sub_diag by lia. simpl. intros [= <-].
        rewrite members_add, members_new. simpl.
        rewrite filter_none; [done|].
        intros e He Hj. apply Hr in Hj. lia.
      * rewrite decide_False by congruence. simpl. rewrite app_nil_r.
        intros Hc. apply Hm. apply lookup_app_Some in Hc as [Hc|[? Hc]]; [done|].
        apply list_lookup_singleton_Some in Hc as [? _]. lia.
Qed.

Lemma forEachTickable_Inv tickables vi ti ticksUsed g log :
  Inv g log →
  Inv (forEachTickable new add vi ti tickables ticksUsed g)
      (log ++ visits vi ti tickables ticksUsed).
Proof.
  revert ti ticksUsed g log.
  induction tickables as [|t ts IH]; intros ti ticksUsed g log HI; simpl.
  - by rewrite app_nil_r.
  - rewrite cons_middle, app_assoc. apply IH. by apply visit_Inv.
Qed.

Lemma forEachVoice_Inv voices vi rm g log :
  Inv g log →
  Inv (forEachVoice new add vi voices rm g) (log ++ allVisits vi voices rm).
Proof.
  revert vi g log. induction voices as [|v vs IH]; intros vi g log HI; simpl.
  - by rewrite app_nil_r.
  - rewrite app_assoc. apply IH. by apply forEachTickable_Inv.
Qed.

Lemma createContexts_Inv (voices : list Voice.t) (cs : Contexts.t C) :
  createContexts new add (Some voices) = Ok cs →
  ∃ g, Inv g (allVisits 0 voices (Contexts.resolutionMultiplier cs))
       ∧ Contexts.map cs = tickToContextMap g
       ∧ Contexts.array cs = contexts g
       ∧ Contexts.list cs
         = Vex.SortAndUnique (tickList g) (λ a b, a - b) Z.eqb.
Proof.
  intros H. apply createContexts_Ok in H as (v0 & r & [= ->] & _ & Hcs).
  simpl in Hcs.
  pose proof (forEachVoice_Inv (v0 :: r) 0 (Contexts.resolutionMultiplier cs)
                _ [] Inv_init) as HI.
  rewrite app_nil_l in HI.
  eexists. split; [exact HI|].
  destruct cs as [m a l rm]. simpl in *. by injection Hcs.
Qed.

End GridInvariant.

(** ** The visits of the grid loop *)

Lemma visits_elem vi ti0 (tickables : list Tickable.t) ticksUsed e :
  e ∈ visits vi ti0 tickables ticksUsed ↔
  ∃ k tickable,
    tickables !! k = Some tickable
    ∧ e = ((vi, (ti0 + k)%nat), tickable,
           Fraction.numerator
             (foldl Fraction.add ticksUsed (Tickable.ticks <$> take k tickables))).
Proof.
  revert ti0 ticksUsed. induction tickables as [|t ts IH]; intros ti0 tu; simpl.
  - split; [by intros ?%elem_of_nil|]. by intros (k & t & ? & _).
  - rewrite elem_of_cons, IH. split.
    + intros [->|(k & t' & Hk & ->)].
      * exists 0%nat, t. by rewrite Nat.add_0_r.
      * exists (S k), t'. split; [done|]. by rewrite Nat.add_succ_r.
    + intros ([|k] & t' & Hk & ->); simpl in *.
      * left. injection Hk as <-. by rewrite Nat.add_0_r.
      * right. exists k, t'. split; [done|]. by rewrite Nat.add_succ_r.
Qed.

Lemma visits_NoDup vi ti0 (tickables : list Tickable.t) ticksUsed :
  NoDup (visits vi ti0 tickables ticksUsed).*1.*1.
Proof.
  revert ti0 ticksUsed. induction tickables as [|t ts IH]; intros ti0 tu; simpl.
  - constructor.
  - constructor; [|apply IH].
    intros Hin. apply list_elem_of_fmap in Hin as (m & Hm & Hin).
    apply list_elem_of_fmap in Hin as (e & -> & Hin).
    apply visits_elem in Hin as (k & t' & _ & ->). simpl in Hm.
    injection Hm. lia.
Qed.

Lemma allVisits_elem vi0 (voices : list Voice.t) rm e :
  e ∈ allVisits vi0 voices rm ↔
  ∃ j voice k tickable,
    voices !! j = Some voice
    ∧ Voice.getTickables voice !! k = Some tickable
    ∧ e = (((vi0 + j)%nat, k), tickable, integerTick rm voice k).
Proof.
  revert vi0. induction voices as [|v vs IH]; intros vi0; simpl.
  - split; [by intros ?%elem_of_nil|]. by intros (j & v & k & t & ? & _).
  - rewrite elem_of_app, visits_elem, IH. split.
    + intros [(k & t & Hk & ->)|(j & v' & k & t & Hj & Hk & ->)].
      * exists 0%nat, v, k, t. by rewrite Nat.add_0_r.
      * exists (S j), v', k, t. by rewrite Nat.add_succ_r.
    + intros ([|j] & v' & k & t & Hj & Hk & ->); simpl in *.
      * left. injection Hj as <-. exists k, t. by rewrite Nat.add_0_r.
      * right. exists j, v', k, t. by rewrite Nat.add_succ_r.
Qed.

Lemma allVisits_NoDup vi0 (voices : list Voice.t) rm :
  NoDup (allVisits vi0 voices rm).*1.*1.
Proof.
  revert vi0. induction voices as [|v vs IH]; intros vi0; simpl.
  - constructor.
  - rewrite !fmap_app. apply NoDup_app. split; [apply visits_NoDup|].
    split; [|apply IH].
    intros ref H1 H2.
    apply list_elem_of_fmap in H1 as (m1 & -> & H1).
    apply list_elem_of_fmap in H1 as (e1 & -> & H1).
    apply list_elem_of_fmap in H2 as (m2 & Heq & H2).
    apply list_elem_of_fmap in H2 as (e2 & -> & H2).
    apply visits_elem in H1 as (k1 & t1 & _ & ->).
    apply allVisits_elem in H2 as (j & v' & k2 & t2 & _ & _ & ->).
    simpl in Heq. injection Heq. lia.
Qed.

Lemma allVisits_ticks (voices : list Voice.t) rm tick :
  tick ∈ (allVisits 0 voices rm).*2 ↔ occurs rm voices tick.
Proof.
  unfold occurs. rewrite list_elem_of_fmap. split.
  - intros (e & -> & He).
    apply allVisits_elem in He as (j & v & k & t & Hj & Hk & ->).
    exists j, v, k. split; [done|]. split; [|done]. by eapply lookup_lt_Some.
  - intros (j & v & k & Hj & Hk & ->).
    apply lookup_lt_is_Some in Hk as [t Hk].
    exists ((j, k), t, integerTick rm v k). split; [done|].
    apply allVisits_elem. exists j, v, k, t. done.
Qed.

(** Two entries of a list without duplicate keys that have the same key
    are the same entry. *)
Lemma NoDup_fmap_eq {A B} (f : A → B) (l : list A) x y :
  NoDup (f <$> l) → x ∈ l → y ∈ l → f x = f y → x = y.
Proof.
  induction l as [|a l IH]; simpl; [by intros _ ?%elem_of_nil|].
  intros [Ha Hl]%NoDup_cons Hx Hy Hf.
  apply elem_of_cons in Hx as [->|Hx]; apply elem_of_cons in Hy as [->|Hy].
  - done.
  - destruct Ha. rewrite Hf. by apply list_elem_of_fmap_2.
  - destruct Ha. rewrite <- Hf. by apply list_elem_of_fmap_2.
  - by apply IH.
Qed.

(** ** What the grid of [createContexts] holds *)

Section GridFacts.
Context {C : Type} (new : C) (add : TickableRef * Tickable.t → C → C).
Context (members : C → list (TickableRef * Tickable.t)).
Hypothesis members_new : members new = [].
Hypothesis members_add : ∀ m c, members (add m c) = members c ++ [m].

Variables (voices : list Voice.t) (cs : Contexts.t C).
Hypothesis Hcs : createContexts new add (Some voices) = Ok cs.

Local Abbreviation rm := (Contexts.resolutionMultiplier cs).
Local Abbreviation log := (allVisits 0 voices (Contexts.resolutionMultiplier cs)).

Lemma grid_map_dom tick :
  is_Some (Contexts.map cs !! tick) ↔ occurs rm voices tick.
Proof.
  destruct (createContexts_Inv new add members members_new members_add
              voices cs Hcs) as (g & HI & -> & _).
  by rewrite (inv_dom _ _ _ HI), allVisits_ticks.
Qed.

Lemma grid_map_range tick i :
  Contexts.map cs !! tick = Some i → (i < length (Contexts.array cs))%nat.
Proof.
  destruct (createContexts_Inv new add members members_new members_add
              voices cs Hcs) as (g & HI & -> & -> & _).
  apply (inv_range _ _ _ HI).
Qed.

Lemma grid_map_inj t1 t2 i :
  Contexts.map cs !! t1 = Some i → Contexts.map cs !! t2 = Some i → t1 = t2.
Proof.
  destruct (createContexts_Inv new add members members_new members_add
              voices cs Hcs) as (g & HI & -> & _).
  apply (inv_inj _ _ _ HI).
Qed.

Lemma grid_list_sorted : StronglySorted Z.lt (Contexts.list cs).
Proof.
  destruct (createContexts_Inv new add members members_new members_add
              voices cs Hcs) as (g & HI & _ & _ & ->).
  apply SortAndUnique_spec.
Qed.

Lemma grid_list_elem tick :
  tick ∈ Contexts.list cs ↔ occurs rm voices tick.
Proof.
  destruct (createContexts_Inv new add members members_new members_add
              voices cs Hcs) as (g & HI & _ & _ & ->).
  rewrite (proj2 (SortAndUnique_spec _)), (inv_list _ _ _ HI).
  apply allVisits_ticks.
Qed.

Lemma grid_wellFormed : wellFormed cs.
Proof.
  intros tick Ht. apply grid_list_elem, grid_map_dom in Ht as [i Hi].
  exists i. split; [done|]. by eapply grid_map_range.
Qed.

Lemma grid_length : length (Contexts.array cs) = length (Contexts.list cs).
Proof.
  pose proof grid_list_sorted as Hs%StronglySorted_lt_NoDup.
  rewrite <- (size_list_to_set (A := Z) (C := gset Z)) by done.
  assert (list_to_set (Contexts.list cs) = dom (Contexts.map cs)) as ->.
  { apply set_eq. intros tick.
    by rewrite elem_of_list_to_set, elem_of_dom, grid_list_elem, grid_map_dom. }
  rewrite size_dom.
  destruct (createContexts_Inv new add members members_new members_add
              voices cs Hcs) as (g & HI & -> & -> & _).
  apply (inv_size _ _ _ HI).
Qed.

Lemma grid_members vi voice ti tickable :
  voices !! vi = Some voice →
  Voice.getTickables voice !! ti = Some tickable →
  ∃ i c,
    Contexts.map cs !! integerTick rm voice ti = Some i
    ∧ Contexts.array cs !! i = Some c
    ∧ ((vi, ti), tickable) ∈ members c
    ∧ ∀ j c', Contexts.array cs !! j = Some c' →
        NoDup (members c').*1
        ∧ ((vi, ti) ∈ (members c').*1 ↔ j = i).
Proof.
  intros Hv Ht.
  destruct (createContexts_Inv new add members members_new members_add
              voices cs Hcs) as (g & HI & Hm & Ha & _).
  rewrite Hm, Ha.
  set (e := ((vi, ti), tickable, integerTick rm voice ti)).
  assert (He : e ∈ log).
  { apply allVisits_elem. exists vi, voice, ti, tickable. done. }
  assert (is_Some (tickToContextMap g !! integerTick rm voice ti)) as [i Hi].
  { apply (inv_dom _ _ _ HI). by apply (list_elem_of_fmap_2 snd) in He. }
  pose proof (inv_range _ _ _ HI _ _ Hi) as [c Hc]%lookup_lt_is_Some.
  exists i, c. split; [done|]. split; [done|]. split.
  - rewrite (inv_members _ _ _ HI i c Hc).
    apply (list_elem_of_fmap_2 fst (_ : list (TickableRef * Tickable.t * Z)) e).
    by apply list_elem_of_filter.
  - intros j c' Hc'. rewrite (inv_members _ _ _ HI j c' Hc'). split.
    + eapply sublist_NoDup; [apply (allVisits_NoDup 0 voices rm)|].
      do 2 apply fmap_sublist. apply sublist_filter.
    + split.
      * intros Hin. apply list_elem_of_fmap in Hin as (m & Hm' & Hin).
        apply list_elem_of_fmap in Hin as (e' & -> & Hin).
        apply list_elem_of_filter in Hin as [Hj He'].
        assert (e' = e) as ->.
        { eapply (NoDup_fmap_eq (λ x, x.1.1)); [|done..].
          pose proof (allVisits_NoDup 0 voices rm) as Hnd.
          rewrite <- list_fmap_compose in Hnd. exact Hnd. }
        simpl in Hj. congruence.
      * intros ->. apply (list_elem_of_fmap_2 fst) with (x := (vi, ti, tickable)).
        apply (list_elem_of_fmap_2 fst (_ : list (TickableRef * Tickable.t * Z)) e).
        by apply list_elem_of_filter.
Qed.

End GridFacts.

(** C3.  For voices that pass validation, [createContexts] creates a
    context at a tick exactly when the tick is the integer tick
    coordinate of some tickable, never two contexts for one tick nor one
    context for two ticks, as many contexts as there are distinct ticks,
    and adds every tickable to exactly one context, once: the one at the
    numerator of its running start time.  This holds for every context
    kind whose insertion appends the tickable to the context's
    members. *)
Theorem createContexts_one_context_per_tick {C : Type}
    (ContextType : C) (addToContext : TickableRef * Tickable.t → C → C)
    (members : C → list (TickableRef * Tickable.t))
    (voices : list Voice.t) (cs : Contexts.t C) :
  members ContextType = [] →
  (∀ tickable c, members (addToContext tickable c) = members c ++ [tickable]) →
  createContexts ContextType addToContext (Some voices) = Ok cs →
  let resolutionMultiplier := Contexts.resolutionMultiplier cs in
  (* a context at a tick exactly when the tick occurs across the voices *)
  (∀ tick, is_Some (Contexts.get cs tick)
           ↔ occurs resolutionMultiplier voices tick)
  (* no context is shared by two ticks *)
  ∧ (∀ tick1 tick2 i,
       Contexts.map cs !! tick1 = Some i → Contexts.map cs !! tick2 = Some i →
       tick1 = tick2)
  (* as many contexts as distinct ticks *)
  ∧ NoDup (Contexts.list cs)
  ∧ (∀ tick, tick ∈ Contexts.list cs ↔ occurs resolutionMultiplier voices tick)
  ∧ length (Contexts.array cs) = length (Contexts.list cs)
  (* every tickable is in the context at its tick, once, and in no other *)
  ∧ (∀ vi voice ti tickable,
       voices !! vi = Some voice →
       Voice.getTickables voice !! ti = Some tickable →
       ∃ i c,
         Contexts.map cs !! integerTick resolutionMultiplier voice ti = Some i
         ∧ Contexts.array cs !! i = Some c
         ∧ ((vi, ti), tickable) ∈ members c
         ∧ ∀ j c', Contexts.array cs !! j = Some c' →
             NoDup (members c').*1
             ∧ ((vi, ti) ∈ (members c').*1 ↔ j = i)).
Proof.
  intros Hnew Hadd Hcs. cbv zeta.
  pose proof (grid_map_dom _ _ _ Hnew Hadd _ _ Hcs) as Hdom.
  pose proof (grid_map_range _ _ _ Hnew Hadd _ _ Hcs) as Hrange.
  split; [|split; [|split; [|split; [|split]]]].
  - intros tick. rewrite <- Hdom. unfold Contexts.get. split.
    + intros [c Hc]. destruct (Contexts.map cs !! tick); [eauto|done].
    + intros [i Hi]. rewrite Hi. simpl. apply lookup_lt_is_Some. eauto.
  - eapply grid_map_inj; eauto.
  - apply StronglySorted_lt_NoDup. eapply grid_list_sorted; eauto.
  - eapply grid_list_elem; eauto.
  - eapply grid_length; eauto.
  - intros vi voice ti tickable Hv Ht. eapply grid_members; eauto.
Qed.

Lemma createContexts_one_context_per_tick_witness :
  ∃ cs,
    createContexts TickContext.new TickContext.addTickable
      (Some Examples.twoVoices) = Ok cs
    ∧ length (Contexts.array cs) = length (Contexts.list cs)
    ∧ Contexts.list cs = [0; 1; 2; 3].
Proof.
  eexists. split; [vm_compute; reflexivity|]. split.
  - refine (proj1 (proj2 (proj2 (proj2 (proj2
      (createContexts_one_context_per_tick TickContext.new
         TickContext.addTickable TickContext.tickables Examples.twoVoices _
         eq_refl (λ _ _, eq_refl) _)))))).
    vm_compute; reflexivity.
  - vm_compute; reflexivity.
Defined.

(** ** Contexts that differ in what the passes assign only *)

Lemma sim_refl cs : sim cs cs.
Proof. by split. Qed.

Lemma sim_trans cs1 cs2 cs3 : sim cs1 cs2 → sim cs2 cs3 → sim cs1 cs3.
Proof. intros [] []. split; congruence. Qed.

Lemma sim_length cs cs' :
  sim cs cs' → length (Contexts.array cs') = length (Contexts.array cs).
Proof.
  intros [_ _ _ H]. apply (f_equal length) in H.
  by rewrite !length_fmap in H.
Qed.

Lemma sim_wellFormed cs cs' : sim cs cs' → wellFormed cs → wellFormed cs'.
Proof.
  intros Hs Hw tick. rewrite (sim_list _ _ Hs), (sim_map _ _ Hs).
  rewrite (sim_length _ _ Hs). apply Hw.
Qed.

Lemma maxOf_metrics (f : Tickable.t → num)
    (g : num * num * num * num * num → num) c c' :
  (∀ t, f t = g (Tickable.width t, Tickable.leftPx t, Tickable.rightPx t,
                 Tickable.extraLeftPx t, Tickable.extraRightPx t)) →
  metrics c = metrics c' →
  TickContext.maxOf f c = TickContext.maxOf f c'.
Proof.
  intros Hf. unfold TickContext.maxOf, metrics.
  generalize 0%float. generalize (TickContext.tickables c').
  induction (TickContext.tickables c) as [|m l IH]; intros [|m' l'] q H;
    try done.
  rewrite !fmap_cons in H. injection H as H1 H2 H3 H4 H5 H6. simpl.
  rewrite !Hf, H1, H2, H3, H4, H5. by apply IH.
Qed.

Lemma preFormat_metrics c c' :
  metrics c = metrics c' →
  TickContext.getWidth (TickContext.preFormat c)
  = TickContext.getWidth (TickContext.preFormat c')
  ∧ TickContext.getExtraPx (TickContext.preFormat c)
    = TickContext.getExtraPx (TickContext.preFormat c').
Proof.
  intros H. unfold TickContext.getWidth, TickContext.getExtraPx. simpl.
  rewrite (maxOf_metrics Tickable.width (λ p, p.1.1.1.1) c c') by done.
  rewrite (maxOf_metrics Tickable.leftPx (λ p, p.1.1.1.2) c c') by done.
  rewrite (maxOf_metrics Tickable.rightPx (λ p, p.1.1.2) c c') by done.
  rewrite (maxOf_metrics Tickable.extraLeftPx (λ p, p.1.2) c c') by done.
  rewrite (maxOf_metrics Tickable.extraRightPx (λ p, p.2) c c') by done.
  done.
Qed.

Lemma sim_lookup cs cs' i c' :
  sim cs cs' → Contexts.array cs' !! i = Some c' →
  ∃ c, Contexts.array cs !! i = Some c ∧ metrics c = metrics c'.
Proof.
  intros [_ _ _ H] Hc.
  assert (Hm : (metrics <$> Contexts.array cs) !! i = Some (metrics c')).
  { by rewrite <- H, list_lookup_fmap, Hc. }
  rewrite list_lookup_fmap in Hm.
  destruct (Contexts.array cs !! i) as [c|]; simplify_eq/=. eauto.
Qed.

Lemma sim_reportedWidth cs cs' tick :
  sim cs cs' → reportedWidth cs' tick = reportedWidth cs tick.
Proof.
  intros Hs. unfold reportedWidth, Contexts.get.
  rewrite (sim_map _ _ Hs).
  destruct (Contexts.map cs !! tick) as [i|]; [|done]. simpl.
  destruct (Contexts.array cs' !! i) as [c'|] eqn:E'.
  - destruct (sim_lookup _ _ _ _ Hs E') as (c & -> & Hm).
    symmetry. by apply preFormat_metrics.
  - apply lookup_ge_None in E'. rewrite (sim_length _ _ Hs) in E'.
    apply lookup_ge_None in E'. by rewrite E'.
Qed.

Lemma sim_reportedExtra cs cs' tick :
  sim cs cs' → reportedExtra cs' tick = reportedExtra cs tick.
Proof.
  intros Hs. unfold reportedExtra, Contexts.get.
  rewrite (sim_map _ _ Hs).
  destruct (Contexts.map cs !! tick) as [i|]; [|done]. simpl.
  destruct (Contexts.array cs' !! i) as [c'|] eqn:E'.
  - destruct (sim_lookup _ _ _ _ Hs E') as (c & -> & Hm).
    symmetry. by apply preFormat_metrics.
  - apply lookup_ge_None in E'. rewrite (sim_length _ _ Hs) in E'.
    apply lookup_ge_None in E'. by rewrite E'.
Qed.

Lemma storeContext_sim cs i c c' :
  Contexts.array cs !! i = Some c → metrics c' = metrics c →
  sim cs (storeContext cs i c').
Proof.
  intros Hc Hm. split; try done. simpl.
  rewrite list_fmap_insert, Hm. apply list_insert_id.
  by rewrite list_lookup_fmap, Hc.
Qed.

Lemma lookupContext_wellFormed {C} (cs : Contexts.t C) tick :
  wellFormed cs → tick ∈ Contexts.list cs →
  ∃ i c, lookupContext cs tick = Ok (i, c)
         ∧ Contexts.map cs !! tick = Some i
         ∧ Contexts.array cs !! i = Some c.
Proof.
  intros Hw Ht. destruct (Hw tick Ht) as (i & Hi & [c Hc]%lookup_lt_is_Some).
  exists i, c. unfold lookupContext. by rewrite Hi, Hc.
Qed.

Lemma lookupContext_reportedWidth cs tick i c :
  lookupContext cs tick = Ok (i, c) →
  reportedWidth cs tick = TickContext.getWidth (TickContext.preFormat c).
Proof.
  unfold lookupContext, reportedWidth, Contexts.get.
  destruct (Contexts.map cs !! tick) as [j|]; [|done]. simpl.
  destruct (Contexts.array cs !! j) as [c0|]; [|done]. by intros [= _ ->].
Qed.

Lemma lookupContext_reportedExtra cs tick i c :
  lookupContext cs tick = Ok (i, c) →
  reportedExtra cs tick = TickContext.getExtraPx (TickContext.preFormat c).
Proof.
  unfold lookupContext, reportedExtra, Contexts.get.
  destruct (Contexts.map cs !! tick) as [j|]; [|done]. simpl.
  destruct (Contexts.array cs !! j) as [c0|]; [|done]. by intros [= _ ->].
Qed.

Lemma lookupContext_Some {C} (cs : Contexts.t C) tick i c :
  lookupContext cs tick = Ok (i, c) → Contexts.array cs !! i = Some c.
Proof.
  unfold lookupContext.
  destruct (Contexts.map cs !! tick) as [j|]; [|done].
  destruct (Contexts.array cs !! j) as [c0|] eqn:E; [|done].
  by intros [= <- <-].
Qed.

(** ** The minimum-width loop of [preCalculateMinTotalWidth] *)

Lemma widthOfTick_Ok st tick i c :
  lookupContext st.2 tick = Ok (i, c) →
  Formatter.widthOfTick st tick
  = Ok (st.1 ++ [TickContext.getWidth (TickContext.preFormat c)],
        storeContext st.2 i (TickContext.preFormat c)).
Proof. unfold Formatter.widthOfTick. by intros ->. Qed.

Lemma reduce_widthOfTick cs0 (ticks : list Z) widths cs :
  wellFormed cs0 → sim cs0 cs →
  (∀ tick, tick ∈ ticks → tick ∈ Contexts.list cs0) →
  ∃ cs', reduce Formatter.widthOfTick ticks (widths, cs)
         = Ok (widths ++ (reportedWidth cs0 <$> ticks), cs')
         ∧ sim cs0 cs'.
Proof.
  intros Hw. revert widths cs.
  induction ticks as [|tick ticks IH]; intros widths cs Hs Hin; simpl.
  - exists cs. by rewrite app_nil_r.
  - assert (Hw' : wellFormed cs) by by eapply sim_wellFormed.
    destruct (lookupContext_wellFormed cs tick Hw') as (i & c & Hl & _ & Hc).
    { rewrite (sim_list _ _ Hs). apply Hin. by left. }
    rewrite (widthOfTick_Ok (widths, cs) tick i c Hl).
    cbn [mbind Result_bind fst snd].
    destruct (IH (widths ++ [TickContext.getWidth (TickContext.preFormat c)])
                 (storeContext cs i (TickContext.preFormat c)))
      as (cs' & -> & Hs').
    + eapply sim_trans; [done|]. by eapply storeContext_sim.
    + intros t Ht. apply Hin. by right.
    + exists cs'. split; [|done]. rewrite <- app_assoc. cbn [app].
      by rewrite <- (sim_reportedWidth _ _ tick Hs),
                 (lookupContext_reportedWidth _ _ _ _ Hl).
Qed.

(** ** Pass 1 of [preFormat] *)

Lemma pass1Step_Ok rc st tick i c :
  lookupContext (Formatter.p_contexts st) tick = Ok (i, c) →
  let c1 := match rc with
            | Some r => TickContext.setContext r c
            | None => c
            end in
  let context := TickContext.preFormat c1 in
  let extra := TickContext.getExtraPx context in
  let xs := advance (Formatter.p_x st, Formatter.p_shift st)
                    (TickContext.getWidth context) (TickContext.left extra)
                    (TickContext.extraLeft extra) in
  Formatter.pass1Step rc st tick
  = Ok (Formatter.mkPass1 xs.1 xs.2
          (Formatter.p_minTotalWidth st + TickContext.getWidth context)%float
          (storeContext (Formatter.p_contexts st) i
             (TickContext.setX xs.1 context))).
Proof. unfold Formatter.pass1Step. by intros ->. Qed.

(** Pass 1 never raises on contexts with a context behind every tick; it
    leaves what the contexts report as it is, and its [x] and [shift] are
    those of [minimumLayout]. *)
Lemma reduce_pass1Step rc cs0 (ticks : list Z) (st : Formatter.Pass1) :
  wellFormed cs0 → sim cs0 (Formatter.p_contexts st) →
  (∀ tick, tick ∈ ticks → tick ∈ Contexts.list cs0) →
  ∃ p, reduce (Formatter.pass1Step rc) ticks st = Ok p
       ∧ sim cs0 (Formatter.p_contexts p)
       ∧ (Formatter.p_x p, Formatter.p_shift p)
         = minimumLayout cs0 ticks (Formatter.p_x st, Formatter.p_shift st).
Proof.
  intros Hw. revert st.
  induction ticks as [|tick ticks IH]; intros st Hs Hin;
    cbn [reduce minimumLayout foldl].
  - exists st. done.
  - assert (Hw' : wellFormed (Formatter.p_contexts st))
      by by eapply sim_wellFormed.
    destruct (lookupContext_wellFormed _ tick Hw') as (i & c & Hl & _ & Hc).
    { rewrite (sim_list _ _ Hs). apply Hin. by left. }
    rewrite (pass1Step_Ok rc st tick i c Hl).
    cbn [mbind Result_bind fst snd].
    set (c1 := match rc with
               | Some r => TickContext.setContext r c
               | None => c
               end).
    assert (Hc1 : metrics c1 = metrics c) by by destruct rc.
    set (st' := Formatter.mkPass1 _ _ _ _).
    destruct (IH st') as (p & -> & Hs' & Hsum).
    + eapply sim_trans; [done|]. simpl. by eapply storeContext_sim.
    + intros t Ht. apply Hin. by right.
    + exists p. split; [done|]. split; [done|]. rewrite Hsum.
      unfold minimumLayout. f_equal. unfold st'. cbn [Formatter.p_x Formatter.p_shift].
      rewrite <- (sim_reportedWidth _ _ _ Hs), <- (sim_reportedExtra _ _ _ Hs),
              (lookupContext_reportedWidth _ _ _ _ Hl),
              (lookupContext_reportedExtra _ _ _ _ Hl).
      destruct (preFormat_metrics c1 c Hc1) as [-> ->]. done.
Qed.

Lemma pass1_wellFormed rc cs :
  wellFormed cs →
  ∃ p, Formatter.pass1 rc cs = Ok p
       ∧ sim cs (Formatter.p_contexts p)
       ∧ (Formatter.p_x p, Formatter.p_shift p)
         = minimumLayout cs (Contexts.list cs) (0%float, 0%float).
Proof.
  intros Hw. unfold Formatter.pass1.
  by destruct (reduce_pass1Step rc cs (Contexts.list cs)
                 (Formatter.mkPass1 0%float 0%float 0%float cs) Hw
                 (sim_refl _))
    as (p & Hp & Hs & Hsum); eauto.
Qed.

(** ** The increments of pass 2 *)








(** ** Pass 2 of [preFormat] *)

Lemma setCenterXShift_metrics s c :
  metrics (TickContext.forEachCenterAligned (Tickable.setCenterXShift s) c)
  = metrics c.
Proof.
  unfold metrics. simpl. rewrite <- list_fmap_compose.
  apply list_fmap_ext. intros i [r t] _. simpl.
  by destruct (Tickable.centerAligned t).
Qed.

Lemma pass2Step_Ok L perTick centerX st tick index i c :
  lookupContext st.2 tick = Ok (i, c) →
  let spaceAccum := (st.1 + Formatter.tickSpace L perTick tick index)%float in
  let context :=
    TickContext.setX (TickContext.getX c + spaceAccum)%float c in
  Formatter.pass2Step L perTick centerX st tick index
  = Ok (spaceAccum,
        storeContext st.2 i
          (TickContext.forEachCenterAligned
             (Tickable.setCenterXShift
                (centerX - TickContext.getX context)%float)
             context)).
Proof. unfold Formatter.pass2Step. by intros ->. Qed.

Lemma forEachI_pass2Step L perTick centerX cs0 (ticks : list Z) index acc cs :
  wellFormed cs0 → sim cs0 cs →
  (∀ tick, tick ∈ ticks → tick ∈ Contexts.list cs0) →
  ∃ cs', forEachI (Formatter.pass2Step L perTick centerX) ticks index (acc, cs)
         = Ok (foldl PrimFloat.add acc
                 (imap (λ k tick,
                          Formatter.tickSpace L perTick tick (index + k))
                       ticks),
               cs')
         ∧ sim cs0 cs'.
Proof.
  intros Hw. revert index acc cs.
  induction ticks as [|tick ticks IH]; intros index acc cs Hs Hin.
  - exists cs. done.
  - assert (Hw' : wellFormed cs) by by eapply sim_wellFormed.
    destruct (lookupContext_wellFormed cs tick Hw') as (i & c & Hl & _ & Hc).
    { rewrite (sim_list _ _ Hs). apply Hin. by left. }
    cbn [forEachI]. rewrite (pass2Step_Ok L perTick centerX (acc, cs) _ _ i c Hl).
    cbn [mbind Result_bind fst snd].
    edestruct (IH (S index)) as (cs' & -> & Hs').
    + eapply sim_trans; [done|]. eapply storeContext_sim; [done|].
      by rewrite setCenterXShift_metrics.
    + intros t Ht. apply Hin. by right.
    + exists cs'. split; [|done]. rewrite imap_cons. cbn [foldl].
      rewrite Nat.add_0_r. do 3 f_equal. apply imap_ext.
      intros k x _. simpl. f_equal. lia.
Qed.

(** Pass 2 never raises on contexts with a context behind every tick, and
    accumulates the increments in tick order. *)
Lemma pass2_wellFormed this jw m cs0 cs :
  wellFormed cs0 → sim cs0 cs →
  ∃ cs', Formatter.pass2 this jw m cs
         = Ok (total (tickSpaces (Contexts.list cs0)
                        (Formatter.leftoverPxPerTick this
                           (Contexts.resolutionMultiplier cs0)
                           (jw - m)%float)),
               cs')
         ∧ sim cs0 cs'.
Proof.
  intros Hw Hs. unfold Formatter.pass2.
  rewrite (sim_list _ _ Hs), (sim_rm _ _ Hs).
  edestruct (forEachI_pass2Step (Contexts.list cs0)) as (cs' & -> & Hs');
    [done..|].
  exists cs'. split; [|done]. done.
Qed.

(** ** Signs of the increments and of their sums *)





(** ** Ticks of voices whose durations are non-negative *)




(** ** What [createTickContexts] leaves in the formatter *)

Lemma createTickContexts_Ok this voices cs this1 :
  Formatter.createTickContexts this voices = Ok (cs, this1) →
  ∃ voice0 rest,
    voices = Some (voice0 :: rest)
    ∧ createContexts TickContext.new TickContext.addTickable
        (Some (voice0 :: rest)) = Ok cs
    ∧ this1 = Formatter.mk (Formatter.minTotalWidth this)
                (Formatter.hasMinTotalWidth this) (Voice.getTicksUsed voice0)
                (Some cs) (Formatter.modiferContexts this).
Proof.
  unfold Formatter.createTickContexts. intros H.
  apply bind_Ok in H as (cs' & Hcs & H).
  destruct voices as [[|voice0 rest]|]; [done| |done].
  injection H as <- <-. eauto.
Qed.

Lemma tickContext_members_new : TickContext.tickables TickContext.new = [].
Proof. done. Qed.

Lemma tickContext_members_add m c :
  TickContext.tickables (TickContext.addTickable m c)
  = TickContext.tickables c ++ [m].
Proof. done. Qed.

Lemma createTickContexts_wellFormed this voices cs this1 :
  Formatter.createTickContexts this voices = Ok (cs, this1) → wellFormed cs.
Proof.
  intros (v0 & r & -> & Hcs & _)%createTickContexts_Ok.
  eapply (grid_wellFormed _ _ _ tickContext_members_new
            tickContext_members_add); done.
Qed.

(** ** The two width computations on well-formed contexts *)

Lemma preCalculateMinTotalWidth_computes this voices cs :
  Formatter.hasMinTotalWidth this = false →
  Formatter.tickContexts this = Some cs → wellFormed cs →
  ∃ cs',
    Formatter.preCalculateMinTotalWidth this voices
    = Ok (sumOfWidths cs,
          Formatter.mk (sumOfWidths cs) true (Formatter.totalTicks this)
            (Some cs') (Formatter.modiferContexts this))
    ∧ sim cs cs'.
Proof.
  intros Hf Hc Hw. unfold Formatter.preCalculateMinTotalWidth.
  rewrite Hf, Hc. cbn [mbind Result_bind]. rewrite Hc.
  destruct (reduce_widthOfTick cs (Contexts.list cs) [] cs Hw (sim_refl _))
    as (cs' & -> & Hs); [done|].
  exists cs'. done.
Qed.

Lemma preFormat_computes this justifyWidth rc voices stave cs :
  Formatter.tickContexts this = Some cs → wellFormed cs →
  ∃ p cs' voices',
    Formatter.pass1 rc cs = Ok p
    ∧ Formatter.preFormat this justifyWidth rc voices stave
      = Ok (Formatter.mk (Formatter.p_x p + Formatter.p_shift p)%float true
              (Formatter.totalTicks this) (Some cs')
              (Formatter.modiferContexts this), voices')
    ∧ sim cs cs'
    ∧ (gtb (default 0%float justifyWidth) 0 = false →
       cs' = Formatter.p_contexts p)
    ∧ (gtb (default 0%float justifyWidth) 0 = true →
       ∃ acc, Formatter.pass2 this (default 0%float justifyWidth)
                (Formatter.p_x p + Formatter.p_shift p)%float
                (Formatter.p_contexts p) = Ok (acc, cs')).
Proof.
  intros Hc Hw. unfold Formatter.preFormat. rewrite Hc.
  destruct (pass1_wellFormed rc cs Hw) as (p & Hp & Hs & _).
  rewrite Hp. cbn [mbind Result_bind].
  destruct (gtb (default 0%float justifyWidth) 0) eqn:Hj.
  - destruct (pass2_wellFormed this (default 0%float justifyWidth)
                (Formatter.p_x p + Formatter.p_shift p)%float cs
                (Formatter.p_contexts p) Hw Hs) as (cs' & Hp2 & Hs').
    rewrite Hp2. cbn [mbind Result_bind].
    exists p, cs'. eexists. split; [done|]. split; [done|]. split; [done|].
    split; [done|]. eauto.
  - exists p, (Formatter.p_contexts p). eexists. split; [done|].
    split; [done|]. split; [done|]. split; [done|]. done.
Qed.

(** ** Pass 1 without left padding *)











(** C6, where the code departs from it.  For a voice that holds a bar
    line only, no ticks are used: with the justification width equal to
    the minimum total width (10), the pixels per tick are 0 / 0, and
    pass 2 moves the context from its pass-1 position 0 to NaN. *)
Theorem preFormat_at_minimum_width_without_ticks :
  ∃ cs this1 p this2 cs2 voices',
    Formatter.createTickContexts Formatter.constructor
      (Some [Examples.onlyBar]) = Ok (cs, this1)
    ∧ Formatter.pass1 None cs = Ok p
    ∧ (Formatter.p_x p + Formatter.p_shift p)%float = 10%float
    ∧ positions (Formatter.p_contexts p) = [0%float]
    ∧ Formatter.preFormat this1 (Some 10%float) None None None
      = Ok (this2, voices')
    ∧ Formatter.tickContexts this2 = Some cs2
    ∧ Formatter.leftoverPxPerTick this1 (Contexts.resolutionMultiplier cs)
        (10 - 10)%float = nan
    ∧ positions cs2 = [nan].
Proof.
  eexists _, _, _, _, _, _. repeat split; vm_compute; reflexivity.
Qed.

(** ** Pass 2 when nothing is left over *)

Lemma positions_storeContext cs i c :
  positions (storeContext cs i c) = <[i := TickContext.getX c]> (positions cs).
Proof. unfold positions. simpl. by rewrite list_fmap_insert. Qed.

Lemma Forall2_same_refl (l : list num) : Forall2 same l l.
Proof. induction l; constructor; [by left|done]. Qed.

Lemma Forall2_same_trans (l1 l2 l3 : list num) :
  Forall2 same l1 l2 → Forall2 same l2 l3 → Forall2 same l1 l3.
Proof.
  intros H. revert l3. induction H as [|a b l1 l2 Hab _ IH]; intros l3 H3.
  - by inversion H3.
  - inversion H3 as [|b' c l2' l3' Hbc Hrest]; subst. constructor.
    + by eapply same_trans.
    + by apply IH.
Qed.

(** With pixels per tick of [+0] and tick deltas that are finite doubles,
    pass 2 adds a zero to every position. *)
Lemma forEachI_pass2Step_zero L centerX cs0 (ticks : list Z) index a cs :
  (∀ k tick, ticks !! k = Some tick →
     is_finite (of_Z (tick - Formatter.prevTick L (index + k))) = true) →
  (∃ s, Prim2SF a = S754_zero s) →
  wellFormed cs0 → sim cs0 cs →
  (∀ tick, tick ∈ ticks → tick ∈ Contexts.list cs0) →
  ∃ a' cs',
    forEachI (Formatter.pass2Step L 0%float centerX) ticks index (a, cs)
    = Ok (a', cs')
    ∧ Forall2 same (positions cs') (positions cs).
Proof.
  intros Hfin Ha Hw. revert index a cs Hfin Ha.
  induction ticks as [|tick ticks IH]; intros index a cs Hfin Ha Hs Hin.
  - exists a, cs. split; [done|]. apply Forall2_same_refl.
  - assert (Hw' : wellFormed cs) by by eapply sim_wellFormed.
    destruct (lookupContext_wellFormed cs tick Hw') as (i & c & Hl & _ & Hc).
    { rewrite (sim_list _ _ Hs). apply Hin. by left. }
    cbn [forEachI].
    rewrite (pass2Step_Ok L 0%float centerX (a, cs) _ _ i c Hl).
    cbn [mbind Result_bind fst snd].
    set (a1 := (a + Formatter.tickSpace L 0 tick index)%float).
    assert (Ha1 : ∃ s, Prim2SF a1 = S754_zero s).
    { apply add_zeros; [done|]. apply mul_zero.
      specialize (Hfin 0%nat tick eq_refl). by rewrite Nat.add_0_r in Hfin. }
    set (c1 := TickContext.forEachCenterAligned _ _).
    destruct (IH (S index) a1 (storeContext cs i c1))
      as (a' & cs' & -> & Hpos).
    + intros k t Hk. specialize (Hfin (S k) t Hk).
      by replace (S index + k)%nat with (index + S k)%nat by lia.
    + done.
    + eapply sim_trans; [done|]. eapply storeContext_sim; [done|].
      unfold c1. by rewrite setCenterXShift_metrics.
    + intros t Ht. apply Hin. by right.
    + exists a', cs'. split; [done|].
      eapply Forall2_same_trans; [exact Hpos|].
      rewrite positions_storeContext.
      rewrite <- (list_insert_id (positions cs) i (TickContext.getX c)) at 2
        by (unfold positions; by rewrite list_lookup_fmap, Hc).
      apply Forall2_insert; [apply Forall2_same_refl|].
      unfold c1. simpl. by apply add_zero_same.
Qed.

(** For a justification width equal to the minimum width pass 1
    computes, a positive finite double, a positive divisor (total ticks
    times resolution multiplier) and tick deltas that are finite
    doubles, pass 2 leaves every position where pass 1 put it, the sign
    of a zero apart. *)
Lemma preFormat_at_minimum_width_keeps_positions
    (this : Formatter.t) (rc : option RenderingContext)
    (voices : option (list Voice.t)) (stave : option Stave)
    (cs : Contexts.t TickContext.t) (p : Formatter.Pass1) (justifyWidth : num) :
  Formatter.tickContexts this = Some cs → wellFormed cs →
  Formatter.pass1 rc cs = Ok p →
  justifyWidth = (Formatter.p_x p + Formatter.p_shift p)%float →
  (justifyWidth <? infinity)%float = true →
  (0 <? Fraction.value (Formatter.totalTicks this)
        * of_Z (Contexts.resolutionMultiplier cs))%float = true →
  Forall (λ δ, is_finite (of_Z δ) = true) (deltas (Contexts.list cs)) →
  ∃ this' voices' cs',
    Formatter.preFormat this (Some justifyWidth) rc voices stave
    = Ok (this', voices')
    ∧ Formatter.tickContexts this' = Some cs'
    ∧ (gtb justifyWidth 0 = true →
       Formatter.leftoverPxPerTick this (Contexts.resolutionMultiplier cs)
         (justifyWidth - (Formatter.p_x p + Formatter.p_shift p))
       = 0%float)
    ∧ Forall2 same (positions cs') (positions (Formatter.p_contexts p)).
Proof.
  intros Hc Hw Hp Hjw Hfin Hd Hδ.
  destruct (preFormat_computes this (Some justifyWidth) rc voices stave cs Hc Hw)
    as (p' & cs' & voices' & Hp' & Hpf & _ & Hno & Hyes).
  assert (p' = p) as -> by congruence.
  eexists _, voices', cs'. split; [exact Hpf|]. split; [done|].
  assert (Hper : gtb justifyWidth 0 = true →
    Formatter.leftoverPxPerTick this (Contexts.resolutionMultiplier cs)
      (justifyWidth - (Formatter.p_x p + Formatter.p_shift p)) = 0%float).
  { intros Hj. unfold Formatter.leftoverPxPerTick.
    rewrite <- Hjw, sub_diag by done. by apply zero_div. }
  split; [done|].
  destruct (gtb (default 0%float (Some justifyWidth)) 0) eqn:Hj.
  - destruct (Hyes eq_refl) as [acc Hp2]. simpl in Hp2.
    destruct (pass1_wellFormed rc cs Hw) as (p' & Hp'' & Hs & _).
    assert (p' = p) as -> by congruence.
    unfold Formatter.pass2 in Hp2.
    rewrite (sim_rm _ _ Hs), (Hper Hj), (sim_list _ _ Hs) in Hp2.
    edestruct (forEachI_pass2Step_zero (Contexts.list cs))
      as (a' & cs'' & Hz & Hpos); [| |exact Hw|exact Hs| |].
    4: { rewrite Hz in Hp2. injection Hp2 as _ <-. exact Hpos. }
    + intros k tick Hk. rewrite Forall_lookup in Hδ. apply (Hδ k).
      unfold deltas. by rewrite list_lookup_imap, Hk.
    + by exists false.
    + done.
  - rewrite (Hno eq_refl). apply Forall2_same_refl.
Qed.

(** ** What each method does to the cache *)

Lemma preCalculateMinTotalWidth_Ok this voices w this' :
  Formatter.preCalculateMinTotalWidth this voices = Ok (w, this') →
  Formatter.hasMinTotalWidth this' = true
  ∧ Formatter.minTotalWidth this' = w.
Proof.
  unfold Formatter.preCalculateMinTotalWidth.
  destruct (Formatter.hasMinTotalWidth this) eqn:Hf.
  - by intros [= <- <-].
  - intros H. apply bind_Ok in H as (this1 & _ & H).
    destruct (Formatter.tickContexts this1); [|done].
    apply bind_Ok in H as ([ws cs'] & _ & H). by injection H as <- <-.
Qed.

Lemma preFormat_Ok this jw rc voices stave this' voices' :
  Formatter.preFormat this jw rc voices stave = Ok (this', voices') →
  Formatter.hasMinTotalWidth this' = true
  ∧ Formatter.totalTicks this' = Formatter.totalTicks this
  ∧ Formatter.modiferContexts this' = Formatter.modiferContexts this
  ∧ is_Some (Formatter.tickContexts this').
Proof.
  unfold Formatter.preFormat.
  destruct (Formatter.tickContexts this); [|done].
  intros H. apply bind_Ok in H as (p & _ & H).
  destruct (gtb _ _).
  - apply bind_Ok in H as ([acc cs'] & _ & H). injection H as <- _. simpl. eauto.
  - injection H as <- _. simpl. eauto.
Qed.

Lemma joinVoices_Ok this voices this' :
  Formatter.joinVoices this voices = Ok this' →
  Formatter.hasMinTotalWidth this' = false
  ∧ Formatter.minTotalWidth this' = Formatter.minTotalWidth this
  ∧ Formatter.totalTicks this' = Formatter.totalTicks this
  ∧ Formatter.tickContexts this' = Formatter.tickContexts this.
Proof.
  unfold Formatter.joinVoices, Formatter.createModifierContexts.
  intros H. apply bind_Ok in H as ([cs this1] & H1 & H).
  apply bind_Ok in H1 as (cs' & _ & H1). injection H1 as _ <-.
  by injection H as <-.
Qed.

Lemma createModifierContexts_Ok this voices cs this' :
  Formatter.createModifierContexts this voices = Ok (cs, this') →
  Formatter.hasMinTotalWidth this' = Formatter.hasMinTotalWidth this
  ∧ Formatter.minTotalWidth this' = Formatter.minTotalWidth this
  ∧ Formatter.tickContexts this' = Formatter.tickContexts this.
Proof.
  unfold Formatter.createModifierContexts.
  intros H. apply bind_Ok in H as (cs' & _ & H). by injection H as _ <-.
Qed.

Lemma createTickContexts_cache this voices cs this' :
  Formatter.createTickContexts this voices = Ok (cs, this') →
  Formatter.hasMinTotalWidth this' = Formatter.hasMinTotalWidth this
  ∧ Formatter.minTotalWidth this' = Formatter.minTotalWidth this
  ∧ Formatter.tickContexts this' = Some cs.
Proof. by intros (? & ? & _ & _ & ->)%createTickContexts_Ok. Qed.

Lemma afterPostFormat_cache this :
  Formatter.hasMinTotalWidth (afterPostFormat this)
  = Formatter.hasMinTotalWidth this
  ∧ Formatter.minTotalWidth (afterPostFormat this)
    = Formatter.minTotalWidth this.
Proof.
  unfold afterPostFormat.
  destruct (Formatter.postFormatContexts _ (Formatter.modiferContexts this));
    [|done]. simpl.
  by destruct (Formatter.postFormatContexts _ (Formatter.tickContexts this)).
Qed.

(** ** The cache along a sequence of calls *)

Lemma cacheInv_eq this this' cache :
  Formatter.hasMinTotalWidth this' = Formatter.hasMinTotalWidth this →
  Formatter.minTotalWidth this' = Formatter.minTotalWidth this →
  cacheInv this cache → cacheInv this' cache.
Proof. unfold cacheInv. intros -> ->. done. Qed.

Section CallFacts.
Variable MidLine : Q → Q → Q.

Lemma after_cacheInv this call cache :
  cacheInv this cache →
  cacheInv (after MidLine this call) (cacheStep cache (event MidLine this call)).
Proof.
  intros HI. destruct call; simpl; try done.
  - destruct (Formatter.preCalculateMinTotalWidth this voices)
      as [[w this']|] eqn:E; [|done].
    by apply preCalculateMinTotalWidth_Ok in E.
  - destruct (Formatter.createModifierContexts this voices)
      as [[cs this']|] eqn:E; [|done].
    apply createModifierContexts_Ok in E as (? & ? & _).
    by eapply cacheInv_eq.
  - destruct (Formatter.createTickContexts this voices)
      as [[cs this']|] eqn:E; [|done].
    apply createTickContexts_cache in E as (? & ? & _).
    by eapply cacheInv_eq.
  - destruct (Formatter.preFormat this justifyWidth renderingContext voices
                stave) as [[this' vs]|] eqn:E; [|done].
    apply preFormat_Ok in E as (? & _). done.
  - destruct (afterPostFormat_cache this). by eapply cacheInv_eq.
  - destruct (Formatter.joinVoices this voices) as [this'|] eqn:E; [|done].
    by apply joinVoices_Ok in E as (? & _).
  - destruct (Formatter.alignRests _ _ _) as [vs|]; [|done].
    destruct (Formatter.createTickContexts this (Some vs))
      as [[cs this1]|] eqn:E1; [|done].
    apply createTickContexts_cache in E1 as (Hf1 & Hm1 & _).
    destruct (Formatter.preFormat this1 _ _ _ _) as [[this2 vs2]|] eqn:E2.
    + apply preFormat_Ok in E2 as (Hf2 & _).
      destruct (Formatter.stave _); [|done].
      destruct (afterPostFormat_cache this2) as [Hf3 Hm3].
      simpl. by rewrite Hf3, Hm3.
    + by eapply cacheInv_eq.
Qed.

Lemma foldl_after_cacheInv calls this cache :
  cacheInv this cache →
  cacheInv (foldl (after MidLine) this calls)
           (foldl cacheStep cache (history MidLine this calls)).
Proof.
  revert this cache. induction calls as [|call calls IH]; intros this cache HI;
    [done|].
  simpl. apply IH. by apply after_cacheInv.
Qed.

Lemma run_cacheInv calls :
  cacheInv (run MidLine calls)
           (cached (history MidLine Formatter.constructor calls)).
Proof. apply foldl_after_cacheInv. done. Qed.

End CallFacts.

(** C7.  After any sequence of calls on a new formatter,
    [getMinTotalWidth] raises [NoMinTotalWidth] exactly when no width
    computation has completed since the construction or the last
    invalidation; otherwise it returns the width of the last computation
    that completed, and the formatter is unchanged. *)
Theorem getMinTotalWidth_raises_iff_nothing_cached
    (MidLine : Q → Q → Q) (calls : list Call) :
  let this := run MidLine calls in
  let cache := cached (history MidLine Formatter.constructor calls) in
  (Formatter.getMinTotalWidth this = Throw (RERR NoMinTotalWidth)
   ↔ cache = None)
  ∧ (∀ width, cache = Some width →
       Formatter.getMinTotalWidth this = Ok (width, this)).
Proof.
  cbv zeta. pose proof (run_cacheInv MidLine calls) as HI.
  unfold cacheInv, Formatter.getMinTotalWidth in *.
  destruct (cached _) as [w|].
  - destruct HI as [-> <-]. simpl. split; [done|]. by intros ? [= <-].
  - rewrite HI. simpl. done.
Qed.

(** ** The formatters a sequence of calls can reach *)

Lemma goodState_constructor : goodState Formatter.constructor.
Proof. split; done. Qed.

Lemma lookupContext_Ok {C} (cs : Contexts.t C) tick i c :
  lookupContext cs tick = Ok (i, c) →
  Contexts.map cs !! tick = Some i ∧ Contexts.array cs !! i = Some c.
Proof.
  unfold lookupContext.
  destruct (Contexts.map cs !! tick) as [j|]; [|done].
  destruct (Contexts.array cs !! j) as [c0|] eqn:E; [|done].
  by intros [= <- <-].
Qed.

Lemma postFormatContexts_wellFormed {C} (postFormat : C → C) cs cs' :
  Formatter.postFormatContexts postFormat (Some cs) = Ok cs' →
  wellFormed cs → wellFormed cs'.
Proof.
  unfold Formatter.postFormatContexts.
  generalize (Contexts.list cs) at 1. intros ticks. revert cs.
  induction ticks as [|tick ticks IH]; intros cs H Hw.
  - by injection H as <-.
  - simpl in H. apply bind_Ok in H as (cs1 & H1 & H).
    apply bind_Ok in H1 as ([i c] & Hl & H1). injection H1 as <-.
    apply (IH _ H). intros t Ht. simpl in *.
    destruct (Hw t Ht) as (j & Hj & Hlt). exists j. split; [done|].
    by rewrite length_insert.
Qed.

Lemma afterPostFormat_tickContexts this :
  goodState this →
  goodState (afterPostFormat this)
  ∧ (is_Some (Formatter.tickContexts this) →
     is_Some (Formatter.tickContexts (afterPostFormat this))).
Proof.
  intros [Hw Hf]. unfold afterPostFormat.
  destruct (Formatter.postFormatContexts _ (Formatter.modiferContexts this));
    [|done]. simpl.
  destruct (Formatter.tickContexts this) as [cs|] eqn:Hc; [|done].
  destruct (Formatter.postFormatContexts _ (Some cs)) as [cs'|] eqn:E.
  - split; [|by eauto]. split; simpl; [|by eauto].
    intros ? [= <-]. eapply postFormatContexts_wellFormed; eauto.
  - split; [|by eauto]. split; simpl; [|by eauto].
    intros ? [= <-]. eauto.
Qed.

Lemma preCalculateMinTotalWidth_goodState this voices w this' :
  goodState this →
  Formatter.preCalculateMinTotalWidth this voices = Ok (w, this') →
  goodState this' ∧ is_Some (Formatter.tickContexts this').
Proof.
  intros [Hw Hf] H.
  destruct (decide (Formatter.hasMinTotalWidth this = true))
    as [Eflag|Eflag%not_true_is_false].
  { unfold Formatter.preCalculateMinTotalWidth in H. rewrite Eflag in H.
    injection H as _ <-. split; [by split|]. eauto. }
  assert (∃ this1 cs, Formatter.hasMinTotalWidth this1 = false
            ∧ Formatter.tickContexts this1 = Some cs ∧ wellFormed cs
            ∧ Formatter.preCalculateMinTotalWidth this1 voices = Ok (w, this'))
    as (this1 & cs & Hf1 & Hc1 & Hw1 & H1).
  { destruct (Formatter.tickContexts this) as [cs|] eqn:Hc.
    - exists this, cs. eauto.
    - unfold Formatter.preCalculateMinTotalWidth in H.
      rewrite Eflag, Hc in H. destruct voices as [vs|]; [|done].
      destruct (Formatter.createTickContexts this (Some vs))
        as [[cs this1]|] eqn:E; [|done].
      cbn [mbind Result_bind] in H.
      pose proof (createTickContexts_wellFormed _ _ _ _ E) as Hw1.
      apply createTickContexts_cache in E as (Hf1 & _ & Hc1).
      exists this1, cs. split; [congruence|]. split; [done|]. split; [done|].
      unfold Formatter.preCalculateMinTotalWidth.
      rewrite Hf1, Eflag, Hc1. cbn [mbind Result_bind]. done. }
  destruct (preCalculateMinTotalWidth_computes this1 voices cs Hf1 Hc1 Hw1)
    as (cs' & H2 & Hs).
  rewrite H2 in H1. injection H1 as _ <-. split; [|by eauto].
  split; simpl; [|by eauto]. intros ? [= <-]. by eapply sim_wellFormed.
Qed.

Lemma preFormat_goodState this jw rc voices stave this' voices' :
  goodState this →
  Formatter.preFormat this jw rc voices stave = Ok (this', voices') →
  goodState this' ∧ is_Some (Formatter.tickContexts this').
Proof.
  intros [Hw Hf] H.
  destruct (Formatter.tickContexts this) as [cs|] eqn:Hc; cycle 1.
  { unfold Formatter.preFormat in H. by rewrite Hc in H. }
  destruct (preFormat_computes this jw rc voices stave cs Hc (Hw _ eq_refl))
    as (p & cs' & vs' & _ & H2 & Hs & _).
  rewrite H2 in H. injection H as <- _. split; [|by eauto].
  split; simpl; [|by eauto]. intros ? [= <-].
  eapply sim_wellFormed; eauto.
Qed.

Lemma createTickContexts_goodState this voices cs this' :
  Formatter.createTickContexts this voices = Ok (cs, this') →
  goodState this' ∧ is_Some (Formatter.tickContexts this').
Proof.
  intros H. pose proof (createTickContexts_wellFormed _ _ _ _ H) as Hw.
  apply createTickContexts_cache in H as (_ & _ & Hc).
  split; [|by eauto]. split; [|by eauto]. rewrite Hc. by intros ? [= <-].
Qed.

(** On such a formatter, a width computation that throws has assigned
    nothing. *)
Lemma preFormat_Throw this jw rc voices stave e :
  goodState this →
  Formatter.preFormat this jw rc voices stave = Throw e →
  Formatter.tickContexts this = None ∧ e = TypeError.
Proof.
  intros [Hw _] H.
  destruct (Formatter.tickContexts this) as [cs|] eqn:Hc.
  - destruct (preFormat_computes this jw rc voices stave cs Hc (Hw _ eq_refl))
      as (p & cs' & vs' & _ & H2 & _). congruence.
  - unfold Formatter.preFormat in H. rewrite Hc in H. by injection H as <-.
Qed.

Lemma preCalculateMinTotalWidth_Throw this voices e :
  goodState this →
  Formatter.preCalculateMinTotalWidth this voices = Throw e →
  Formatter.hasMinTotalWidth this = false
  ∧ Formatter.tickContexts this = None
  ∧ ((voices = None ∧ e = RERR BadArgument)
     ∨ Formatter.createTickContexts this voices = Throw e).
Proof.
  intros [Hw _] H.
  destruct (decide (Formatter.hasMinTotalWidth this = true))
    as [Eflag|Eflag%not_true_is_false].
  { unfold Formatter.preCalculateMinTotalWidth in H. by rewrite Eflag in H. }
  split; [done|].
  destruct (Formatter.tickContexts this) as [cs|] eqn:Hc.
  { destruct (preCalculateMinTotalWidth_computes this voices cs Eflag Hc
                (Hw _ eq_refl)) as (cs' & H2 & _). congruence. }
  split; [done|].
  unfold Formatter.preCalculateMinTotalWidth in H. rewrite Eflag, Hc in H.
  destruct voices as [vs|]; [|left; split; [done|]; by injection H as <-].
  right.
  destruct (Formatter.createTickContexts this (Some vs))
    as [[cs this1]|e'] eqn:E; [|by injection H as <-].
  exfalso. cbn [mbind Result_bind] in H.
  pose proof (createTickContexts_wellFormed _ _ _ _ E) as Hw1.
  apply createTickContexts_cache in E as (Hf1 & _ & Hc1).
  assert (Hf1' : Formatter.hasMinTotalWidth this1 = false) by congruence.
  destruct (preCalculateMinTotalWidth_computes this1 (Some vs) cs Hf1' Hc1 Hw1)
    as (cs' & H2 & _).
  unfold Formatter.preCalculateMinTotalWidth in H2.
  rewrite Hf1', Hc1 in H2. cbn [mbind Result_bind] in H2. congruence.
Qed.

Section Reach.
Variable MidLine : Q → Q → Q.

Lemma after_goodState this call :
  goodState this →
  goodState (after MidLine this call)
  ∧ (is_Some (Formatter.tickContexts this)
     ∨ (∃ w, event MidLine this call = Computed w) →
     is_Some (Formatter.tickContexts (after MidLine this call))).
Proof.
  intros HG. destruct call; simpl.
  - split; [done|]. by intros [?|[? ?]].
  - destruct (Formatter.preCalculateMinTotalWidth this voices)
      as [[w this']|] eqn:E.
    + by destruct (preCalculateMinTotalWidth_goodState _ _ _ _ HG E).
    + split; [done|]. by intros [?|[? ?]].
  - split; [done|]. by intros [?|[? ?]].
  - destruct (Formatter.createModifierContexts this voices)
      as [[cs this']|] eqn:E.
    + apply createModifierContexts_Ok in E as (Hf & _ & Hc).
      destruct HG as [Hw Hflag]. split; [split|]; rewrite ?Hc, ?Hf; try done.
      by intros [?|[? ?]].
    + split; [done|]. by intros [?|[? ?]].
  - destruct (Formatter.createTickContexts this voices)
      as [[cs this']|] eqn:E.
    + by destruct (createTickContexts_goodState _ _ _ _ E).
    + split; [done|]. by intros [?|[? ?]].
  - destruct (Formatter.preFormat this justifyWidth renderingContext voices
                stave) as [[this' vs]|] eqn:E.
    + by destruct (preFormat_goodState _ _ _ _ _ _ _ HG E).
    + split; [done|]. by intros [?|[? ?]].
  - destruct (afterPostFormat_tickContexts this HG) as [HG' Hs].
    split; [done|]. by intros [?|[? ?]]; [apply Hs|].
  - destruct (Formatter.joinVoices this voices) as [this'|] eqn:E.
    + apply joinVoices_Ok in E as (Hf & _ & _ & Hc).
      destruct HG as [Hw Hflag]. split; [split|]; rewrite ?Hc, ?Hf; try done.
      by intros [?|[? ?]].
    + split; [done|]. by intros [?|[? ?]].
  - destruct (Formatter.alignRests _ _ _) as [vs|];
      [|split; [done|]; by intros [?|[? ?]]].
    destruct (Formatter.createTickContexts this (Some vs))
      as [[cs this1]|] eqn:E1; [|split; [done|]; by intros [?|[? ?]]].
    destruct (createTickContexts_goodState _ _ _ _ E1) as [HG1 Hs1].
    destruct (Formatter.preFormat this1 _ _ _ _) as [[this2 vs2]|] eqn:E2;
      [|done].
    destruct (preFormat_goodState _ _ _ _ _ _ _ HG1 E2) as [HG2 Hs2].
    destruct (Formatter.stave _); [|done].
    destruct (afterPostFormat_tickContexts this2 HG2) as [HG3 Hs3].
    split; [done|]. intros _. by apply Hs3.
Qed.

Lemma foldl_after_goodState calls this :
  goodState this →
  goodState (foldl (after MidLine) this calls)
  ∧ (is_Some (Formatter.tickContexts this)
     ∨ (∃ w, Computed w ∈ history MidLine this calls) →
     is_Some (Formatter.tickContexts (foldl (after MidLine) this calls))).
Proof.
  revert this. induction calls as [|call calls IH]; intros this HG.
  - split; [done|]. intros [?|[w ?%elem_of_nil]]; done.
  - destruct (after_goodState this call HG) as [HG' Hs].
    destruct (IH _ HG') as [HG'' Hs']. split; [done|].
    simpl. intros [H|[w [Heq|H]%elem_of_cons]]; apply Hs'; eauto.
Qed.

End Reach.

(** C8.  On a formatter on which a width computation has run: a second
    [preCalculateMinTotalWidth] returns the value and the formatter of
    the first, so that no context is rebuilt; and after [joinVoices]
    returns, the cache is invalid and [preCalculateMinTotalWidth] sums
    the widths of the tick contexts again, whatever was cached. *)
Theorem joinVoices_invalidates_minimum_width_cache
    (MidLine : Q → Q → Q) (calls : list Call) :
  (∃ width, Computed width ∈ history MidLine Formatter.constructor calls) →
  let this := run MidLine calls in
  (* without joinVoices, a second call returns the same value and state *)
  (∀ voices width this',
     Formatter.preCalculateMinTotalWidth this voices = Ok (width, this') →
     ∀ voices',
       Formatter.preCalculateMinTotalWidth this' voices' = Ok (width, this'))
  (* after joinVoices, the width is summed again over the contexts *)
  ∧ ∃ cs, Formatter.tickContexts this = Some cs
      ∧ ∀ voices1 this1,
          Formatter.joinVoices this voices1 = Ok this1 →
          Formatter.hasMinTotalWidth this1 = false
          ∧ Formatter.tickContexts this1 = Some cs
          ∧ ∀ voices2, ∃ cs',
              Formatter.preCalculateMinTotalWidth this1 voices2
              = Ok (sumOfWidths cs,
                    Formatter.mk (sumOfWidths cs) true
                      (Formatter.totalTicks this1) (Some cs')
                      (Formatter.modiferContexts this1)).
Proof.
  intros Hran. cbv zeta. split.
  - intros voices w this' H voices'.
    apply preCalculateMinTotalWidth_Ok in H as [Hf Hm].
    unfold Formatter.preCalculateMinTotalWidth. by rewrite Hf, Hm.
  - destruct (foldl_after_goodState MidLine calls Formatter.constructor
                goodState_constructor) as [[Hw _] Hs].
    fold (run MidLine calls) in Hw, Hs.
    destruct Hs as [cs Hc]; [by right|].
    exists cs. split; [done|]. intros voices1 this1 Hj.
    apply joinVoices_Ok in Hj as (Hf & _ & _ & Hc1). rewrite Hc in Hc1.
    split; [done|]. split; [done|]. intros voices2.
    destruct (preCalculateMinTotalWidth_computes this1 voices2 cs Hf Hc1
                (Hw _ Hc)) as (cs' & H & _).
    by exists cs'.
Qed.

Lemma joinVoices_invalidates_minimum_width_cache_witness :
  let calls := [JoinVoices (Some Examples.twoVoices);
                PreCalculateMinTotalWidth (Some Examples.twoVoices)] in
  history Examples.exactMidLine Formatter.constructor calls
  = [Invalidated; Computed 78%float]
  ∧ ∃ cs, Formatter.tickContexts (run Examples.exactMidLine calls) = Some cs.
Proof.
  cbv zeta. split; [vm_compute; reflexivity|].
  destruct (joinVoices_invalidates_minimum_width_cache Examples.exactMidLine
              [JoinVoices (Some Examples.twoVoices);
               PreCalculateMinTotalWidth (Some Examples.twoVoices)])
    as (_ & cs & Hc & _).
  - exists 78%float. vm_compute. apply elem_of_cons; right; apply elem_of_cons; by left.
  - by exists cs.
Defined.

(** ** The scenarios of the specification, run on the embedding *)

(** Two voices of four quarters, of widths 20, 15, 25, 18 and 10, 12, 10,
    14: four tick contexts at the ticks 0 to 3, each as wide as the wider
    of its two notes, and a minimum total width of 78. *)
Example two_voices_of_four_quarters :
  ∃ cs this1 thisA,
    Formatter.createTickContexts Formatter.constructor
      (Some Examples.twoVoices) = Ok (cs, this1)
    ∧ Contexts.list cs = [0; 1; 2; 3]
    ∧ length (Contexts.array cs) = 4%nat
    ∧ Contexts.resolutionMultiplier cs = 1
    ∧ reportedWidth cs <$> Contexts.list cs = [20; 15; 25; 18]%float
    ∧ Formatter.preCalculateMinTotalWidth this1 None = Ok (78%float, thisA).
Proof.
  eexists _, _, _. repeat split; vm_compute; reflexivity.
Qed.

(** Justified to 178, the contexts move by 0, 25, 50 and 75. *)
Example two_voices_justified :
  ∃ cs this1 this2 cs2 voices',
    Formatter.createTickContexts Formatter.constructor
      (Some Examples.twoVoices) = Ok (cs, this1)
    ∧ Formatter.preFormat this1 (Some 178%float) None None None
      = Ok (this2, voices')
    ∧ Formatter.tickContexts this2 = Some cs2
    ∧ positions cs2 = [0; 45; 85; 135]%float.
Proof.
  eexists _, _, _, _, _. split; [vm_compute; reflexivity|].
  split; [vm_compute; reflexivity|]. split; [vm_compute; reflexivity|].
  vm_compute. reflexivity.
Qed.

(** A single leading rest followed by a pitched note takes that note's
    line. *)
Example leading_rest_takes_the_line_of_the_note :
  Formatter.AlignRestsToNotes Examples.exactMidLine
    [Examples.quarterRest None; Examples.pitched 7%Q] true None
  = ([Tickable.setKeyLine 7%Q (Examples.quarterRest None);
      Examples.pitched 7%Q], None).
Proof. vm_compute; reflexivity. Qed.

(** A rest strictly between two pitched notes on lines 3 and 7 resolves
    to the midpoint line. *)
Example rest_between_notes_takes_the_midpoint :
  ∃ rest',
    Formatter.AlignRestsToNotes Examples.exactMidLine
      [Examples.pitched 3%Q; Examples.quarterRest None; Examples.pitched 7%Q]
      true None
    = ([Examples.pitched 3%Q; rest'; Examples.pitched 7%Q], None)
    ∧ (Tickable.line rest' == 5)%Q.
Proof. eexists. split; vm_compute; reflexivity. Qed.

(** A rest under a tuplet with tuplet alignment disabled is left
    unchanged. *)
Example tuplet_rest_is_left_unchanged :
  Formatter.AlignRestsToNotes Examples.exactMidLine Examples.tupletRestNote
    true (Some false)
  = (Examples.tupletRestNote, None).
Proof. vm_compute; reflexivity. Qed.

(** [createTickContexts] alone does not invalidate the cache: the width
    cached for two voices is returned for the contexts of another voice
    until [joinVoices] is called, and computed anew after it. *)
Example cache_is_stale_until_joinVoices :
  let other := Some [Examples.fourFour [Examples.quarter 30%float]] in
  history Examples.exactMidLine Formatter.constructor
    [PreCalculateMinTotalWidth (Some Examples.twoVoices);
     CreateTickContexts other;
     PreCalculateMinTotalWidth None;
     JoinVoices other;
     PreCalculateMinTotalWidth None]
  = [Computed 78%float; Neither; Computed 78%float; Invalidated;
     Computed 30%float].
Proof. vm_compute; reflexivity. Qed.
